(** * LZW compressor and decompressor of [main.cpp]

    A shallow embedding of [compress] and [decompress] (with their local
    lambdas [reset_dictionary] and [rebuild_string]) and the properties
    of the pair: seeding of the base alphabet, the final flush, the
    error paths of the decoder, reset of the dictionary at capacity and
    the round trip; then [print_usage] and [main] over a map of files,
    and the two functions on hosts that differ in the sign of [char] or
    in byte order. *)

From Stdlib Require Import ZArith NArith Lia.
From Stdlib Require Strings.Byte.
From stdpp Require Import base numbers option list gmap relations strings pretty.

Local Open Scope N_scope.

(** ** Platform

    [main.cpp] leaves two things to the host: whether plain [char] is
    signed ([std::numeric_limits<char>::min()] is -128 or 0) and the
    byte order in which a [CodeType] is written by
    [os.write(reinterpret_cast<const char *>(&i), sizeof (CodeType))]. *)

Class Platform : Set := {
  char_is_signed : bool;
  little_endian : bool
}.

Definition x86_64 : Platform :=
  {| char_is_signed := true; little_endian := true |}.
Definition aarch64 : Platform :=
  {| char_is_signed := false; little_endian := true |}.
Definition s390x : Platform :=
  {| char_is_signed := false; little_endian := false |}.

(** [using CodeType = std::uint16_t;] *)
Abbreviation CodeType := N (only parsing).
Abbreviation byte := Init.Byte.byte (only parsing).

Definition CodeType_max : N := 65535.

(** Conversion of a [std::size_t] to [CodeType]: reduction modulo 2^16. *)
Definition to_CodeType (n : nat) : CodeType := N.of_nat n mod 65536.

Module globals.
(** Dictionary Maximum Size (when reached, the dictionary will be reset) *)
Definition dms : CodeType := CodeType_max.
End globals.

(** ** Streams, exceptions and undefined behaviour *)

Inductive failure : Set :=
| InvalidCode      (* runtime_error("invalid compressed code") *)
| CorruptStream    (* runtime_error("corrupted compressed file") *)
| OutOfRange       (* std::out_of_range thrown by at() *)
| EmptyFront       (* front() of an empty vector: undefined behaviour *)
| Unbounded.       (* the loop of rebuild_string never reaches dms *)

Inductive result (A : Type) : Type :=
| Ok (a : A)
| Raise (f : failure).
Arguments Ok {A} a.
Arguments Raise {A} f.

#[global] Instance result_ret : MRet result := λ A a, Ok a.
#[global] Instance result_bind : MBind result := λ A B k m,
  match m with
  | Ok a => k a
  | Raise f => Raise f
  end.

(** A run on streams: the bytes written to [os] so far, and how the run
    ended. What was written before an exception stays written. *)
Record io (A : Type) : Type := IO { written : list byte; outcome : result A }.
Arguments IO {A} written outcome.
Arguments written {A} _.
Arguments outcome {A} _.

#[global] Instance io_ret : MRet io := λ A a, IO [] (Ok a).
#[global] Instance io_bind : MBind io := λ A B k m,
  match outcome m with
  | Ok a => let r := k a in IO (written m ++ written r) (outcome r)
  | Raise f => IO (written m) (Raise f)
  end.

Definition write (bs : list byte) : io unit := IO bs (Ok tt).
Definition throw {A} (f : failure) : io A := IO [] (Raise f).
Definition lift {A} (r : result A) : io A := IO [] r.

(** ** Bytes, chars and codes *)

Section chars.
Context {P : Platform}.

(** [std::numeric_limits<char>::min()] and [max()] *)
Definition minc : Z := if char_is_signed then (-128)%Z else 0%Z.
Definition maxc : Z := if char_is_signed then 127%Z else 255%Z.

(** The value of a [char] holding the byte [b]. *)
Definition char_of_byte (b : byte) : Z :=
  let n := Z.of_N (Byte.to_N b) in
  if char_is_signed && (128 <=? n)%Z then (n - 256)%Z else n.

(** The byte stored in a [char] of value [c]. *)
Definition byte_of_char (c : Z) : byte :=
  default Byte.x00 (Byte.of_N (Z.to_N (c mod 256))).

(** The two bytes of a [CodeType] as the host stores them. *)
Definition code_bytes (i : CodeType) : list byte :=
  let lo := default Byte.x00 (Byte.of_N (i mod 256)) in
  let hi := default Byte.x00 (Byte.of_N ((i / 256) mod 256)) in
  if little_endian then [lo; hi] else [hi; lo].

Definition bytes_code (b0 b1 : byte) : CodeType :=
  if little_endian then Byte.to_N b0 + 256 * Byte.to_N b1
  else Byte.to_N b1 + 256 * Byte.to_N b0.

(** The values the loops of [reset_dictionary] run over:
    [for (long int c = minc; c <= maxc; ++c)]. *)
Definition char_range : list Z := seqZ minc (maxc - minc + 1).
End chars.

(** ** compress *)

Module Encoder.
Section encoder.
Context {P : Platform}.

(** [std::map<std::pair<CodeType, char>, CodeType> dictionary] *)
Definition reset_dictionary : gmap (N * Z) N :=
  foldl (λ (dictionary : gmap (N * Z) N) c,
           let dictionary_size := to_CodeType (size dictionary) in
           <[(globals.dms, c) := dictionary_size]> dictionary)
        ∅ char_range.

Record state : Type := State { dictionary : gmap (N * Z) N; i : CodeType }.

Definition init : state :=
  {| dictionary := reset_dictionary; i := globals.dms |}.

(** [dictionary.at(key)] *)
Definition map_at (d : gmap (N * Z) N) (key : N * Z) : result CodeType :=
  match d !! key with
  | Some v => Ok v
  | None => Raise OutOfRange
  end.

(** The dictionary after the test at the head of the loop body. *)
Definition at_capacity (st : state) : bool :=
  N.of_nat (size (dictionary st)) =? globals.dms.

Definition current (st : state) : gmap (N * Z) N :=
  if at_capacity st then reset_dictionary else dictionary st.

(** One turn of [while (is.get(c))]. *)
Definition step (st : state) (c : Z) : io state :=
  let d := current st in
  match d !! (i st, c) with
  | None =>
      let dictionary_size := to_CodeType (size d) in
      let d' := <[(i st, c) := dictionary_size]> d in
      write (code_bytes (i st));;
      j ← lift (map_at d' (globals.dms, c));
      mret {| dictionary := d'; i := j |}
  | Some _ =>
      j ← lift (map_at d (i st, c));
      mret {| dictionary := d; i := j |}
  end.

Fixpoint loop (st : state) (input : list byte) : io state :=
  match input with
  | [] => mret st
  | b :: rest => st' ← step st (char_of_byte b); loop st' rest
  end.

(** [if (i != globals::dms) os.write(...)] *)
Definition flush (st : state) : io unit :=
  if i st =? globals.dms then mret tt else write (code_bytes (i st)).

Definition compress (input : list byte) : io unit :=
  st ← loop init input; flush st.
End encoder.
End Encoder.

(** ** decompress *)

Module Decoder.
Section decoder.
Context {P : Platform}.

(** [std::vector<std::pair<CodeType, char>> dictionary] *)
Definition reset_dictionary : list (N * Z) :=
  foldl (λ dictionary c, dictionary ++ [(globals.dms, c)]) [] char_range.

(** [dictionary.at(k)] *)
Definition vector_at (d : list (N * Z)) (k : CodeType) : result (N * Z) :=
  match d !! N.to_nat k with
  | Some e => Ok e
  | None => Raise OutOfRange
  end.

(** [s.front()] *)
Definition front (s : list Z) : result Z :=
  match s with
  | c :: _ => Ok c
  | [] => Raise EmptyFront
  end.

(** The [while (k != globals::dms)] loop of [rebuild_string]; [s] is
    the vector being filled. A walk that has taken more steps than the
    dictionary has entries has come back to an entry it already
    visited, and goes on forever: [Unbounded] stands for that, and the
    bound is exact ([rebuild_loop_unbounded], [rebuild_loop_exact]). *)
Fixpoint rebuild_loop (fuel : nat) (d : list (N * Z)) (k : CodeType)
    (s : list Z) : result (list Z) :=
  match fuel with
  | O => Raise Unbounded
  | S fuel' =>
      if k =? globals.dms then Ok s
      else
        e ← vector_at d k;
        rebuild_loop fuel' d e.1 (s ++ [e.2])
  end.

Definition rebuild_string (d : list (N * Z)) (k : CodeType) : result (list Z) :=
  s ← rebuild_loop (S (length d)) d k []; mret (rev s).

Record state : Type := State { dictionary : list (N * Z); i : CodeType }.

Definition init : state :=
  {| dictionary := reset_dictionary; i := globals.dms |}.

Definition at_capacity (st : state) : bool :=
  N.of_nat (length (dictionary st)) =? globals.dms.

Definition current (st : state) : list (N * Z) :=
  if at_capacity st then reset_dictionary else dictionary st.

(** The two branches of [if (k == dictionary.size())]: the dictionary
    they leave and the string [s]. *)
Definition decode (d : list (N * Z)) (i k : CodeType) : result (list (N * Z) * list Z) :=
  if k =? N.of_nat (length d) then
    si ← rebuild_string d i;
    c ← front si;
    let d' := d ++ [(i, c)] in
    s ← rebuild_string d' k;
    mret (d', s)
  else
    s ← rebuild_string d k;
    if i =? globals.dms then mret (d, s)
    else c ← front s; mret (d ++ [(i, c)], s).

(** One turn of [while (is.read(&k, sizeof (CodeType)))]. *)
Definition step (st : state) (k : CodeType) : io state :=
  let d := current st in
  if N.of_nat (length d) <? k then throw InvalidCode
  else
    ds ← lift (decode d (i st) k);
    lift (front ds.2);;
    write (byte_of_char <$> ds.2);;
    mret {| dictionary := ds.1; i := k |}.

Fixpoint loop (st : state) (input : list byte) : io unit :=
  match input with
  | b0 :: b1 :: rest => st' ← step st (bytes_code b0 b1); loop st' rest
  | [_] => throw CorruptStream
  | [] => mret tt
  end.

Definition decompress (input : list byte) : io unit := loop init input.
End decoder.
End Decoder.

(** ** Reset points

    A reset point is named by the number of entries learned since the
    start (inserted by [compress], pushed by [decompress]) when a turn
    of the loop finds the dictionary full and resets it. *)

Module ResetPoints.
Section reset_points.
Context {P : Platform}.

Fixpoint of_compress (st : Encoder.state) (input : list byte) (learned : nat)
    : list nat :=
  match input with
  | [] => []
  | b :: rest =>
      (if Encoder.at_capacity st then [learned] else []) ++
      match outcome (Encoder.step st (char_of_byte b)) with
      | Ok st' =>
          of_compress st' rest
            (learned + (size (Encoder.dictionary st') - size (Encoder.current st)))
      | Raise _ => []
      end
  end.

Fixpoint of_decompress (st : Decoder.state) (input : list byte) (learned : nat)
    : list nat :=
  match input with
  | b0 :: b1 :: rest =>
      (if Decoder.at_capacity st then [learned] else []) ++
      match outcome (Decoder.step st (bytes_code b0 b1)) with
      | Ok st' =>
          of_decompress st' rest
            (learned + (length (Decoder.dictionary st') - length (Decoder.current st)))
      | Raise _ => []
      end
  | _ => []
  end.

Definition compress (input : list byte) : list nat :=
  of_compress Encoder.init input 0.
Definition decompress (input : list byte) : list nat :=
  of_decompress Decoder.init input 0.
End reset_points.
End ResetPoints.

(** ** Dictionaries and the strings of their codes *)

Section dictionaries.
Context {P : Platform}.

(** The code [reset_dictionary] gives to the char [c]. *)
Definition base_code (c : Z) : CodeType := Z.to_N (c - minc).

(** [decodes d k s]: walking the prefix chain of [k] in [d] goes down
    to an entry without prefix and spells [s]. *)
Inductive decodes (d : list (N * Z)) : CodeType → list Z → Prop :=
| decodes_base k c :
    d !! N.to_nat k = Some (globals.dms, c) → k ≠ globals.dms →
    decodes d k [c]
| decodes_ext k p c s :
    d !! N.to_nat k = Some (p, c) → p < k → k ≠ globals.dms →
    decodes d p s →
    decodes d k (s ++ [c]).

(** A dictionary as both sides build it between two resets: the base
    alphabet, then entries whose prefix is an older code. *)
Record wf (d : list (N * Z)) : Prop := {
  wf_base : ∃ ext, d = Decoder.reset_dictionary ++ ext;
  wf_size : N.of_nat (length d) ≤ globals.dms;
  wf_ext : ∀ n p c, d !! n = Some (p, c) → (256 ≤ n)%nat → p < N.of_nat n
}.

(** The map of [compress] holds the entries of [d], each under the code
    that is its index in [d]. *)
Definition corr (m : gmap (N * Z) N) (d : list (N * Z)) : Prop :=
  size m = length d ∧
  ∀ key j, m !! key = Some j ↔ d !! N.to_nat j = Some key.

(** [compress] after some input, [decompress] after the codes written
    for it: the decoder lacks the newest entry, made of its previous
    code and the first char [sim_c0] of the pending match [w]. *)
Record sim (se : Encoder.state) (sd : Decoder.state) (sim_c0 : Z)
    (w : list Z) : Prop := {
  sim_hd : head w = Some sim_c0;
  sim_corr : corr (Encoder.dictionary se)
               (Decoder.current sd ++ [(Decoder.i sd, sim_c0)]);
  sim_wf : wf (Decoder.current sd ++ [(Decoder.i sd, sim_c0)]);
  sim_w : decodes (Decoder.current sd ++ [(Decoder.i sd, sim_c0)]) (Encoder.i se) w;
  sim_prev : (N.to_nat (Decoder.i sd) < length (Decoder.current sd))%nat;
  sim_full : Encoder.at_capacity se = true → Encoder.i se < 256
}.

(** What holds of the decoder after its first code, whatever the stream. *)
Definition decoder_started (sd : Decoder.state) : Prop :=
  N.of_nat (length (Decoder.dictionary sd)) ≤ globals.dms ∧
  Decoder.i sd ≠ globals.dms.
End dictionaries.

(** ** The walk of [rebuild_string] *)

(** One turn of the loop of [rebuild_string]: from the code [k] to the
    prefix of its entry. *)
Inductive follows (d : list (N * Z)) : N → N → Prop :=
| follows_prefix k p c :
    k ≠ globals.dms → d !! N.to_nat k = Some (p, c) → follows d k p.

(** ** An input that fills the dictionary *)

Section diverse.
Context {P : Platform}.

(** The entries [compress] makes when no match ever grows: each byte
    with the one before it. *)
Fixpoint pairs (b : byte) (xs : list byte) : list (N * Z) :=
  match xs with
  | [] => []
  | c :: xs' => (base_code (char_of_byte b), char_of_byte c) :: pairs c xs'
  end.
End diverse.

(** [distinct seen l]: no element of [l] is in [seen] or occurs twice. *)
Fixpoint distinct (seen : gmap N unit) (l : list N) : bool :=
  match l with
  | [] => true
  | x :: l' =>
      match seen !! x with
      | Some _ => false
      | None => distinct (<[x := tt]> seen) l'
      end
  end.

Definition pair_code (e : N * Z) : N := e.1 * 256 + Z.to_N (e.2 + 128).

(** Bytes in which no two neighbours come twice: for each [a], [a] and
    then [a b] for every [b] above [a]. 65281 of them give 65279 new
    entries and one more byte. *)
Definition diverse_block (a : nat) : list nat :=
  a :: flat_map (λ b, [a; b]) (seq (S a) (255 - a)).

Definition diverse_bytes (n : N) : list byte :=
  (λ a, default Byte.x00 (Byte.of_N (N.of_nat a))) <$>
    take (N.to_nat n) (flat_map diverse_block (seq 0 256)).

Definition diverse_input : list byte := diverse_bytes 65281.

#[global] Instance failure_eq_dec : EqDecision failure.
Proof. solve_decision. Defined.

(** ** States the loops pass through *)

Section reachable.
Context {P : Platform}.

(** The states of [compress] at the head of its loop, on any input. *)
Inductive encoder_reachable : Encoder.state → Prop :=
| encoder_reachable_init : encoder_reachable Encoder.init
| encoder_reachable_step se b se' :
    encoder_reachable se →
    outcome (Encoder.step se (char_of_byte b)) = Ok se' →
    encoder_reachable se'.

(** The states of [decompress] at the head of its loop, on any stream. *)
Inductive decoder_reachable : Decoder.state → Prop :=
| decoder_reachable_init : decoder_reachable Decoder.init
| decoder_reachable_step sd k sd' :
    decoder_reachable sd →
    outcome (Decoder.step sd k) = Ok sd' →
    decoder_reachable sd'.

(** A stream that is not the output of [compress]: the code 0 as many
    times as fills the dictionary but for one entry, then [j], whose
    turn fills it, then 0, read after the reset with [j] as the previous
    code, then 256. *)
Definition stale_stream (j : CodeType) : list byte :=
  concat (replicate (N.to_nat 65279) (code_bytes 0)) ++
  code_bytes j ++ code_bytes 0 ++ code_bytes 256.

(** The state of [decompress] when it has read the code 0 for 65279
    times and then [j]: the dictionary is full and [j] is the previous
    code. *)
Definition stale_state (j : CodeType) : Decoder.state :=
  {| Decoder.dictionary :=
       Decoder.reset_dictionary ++ replicate (N.to_nat 65279) (0, minc);
     Decoder.i := j |}.
End reachable.

(** ** Hosts that differ

    A byte with its top bit flipped, which is the byte of a [char]
    whose value is 128 more; an entry of the vector with its [char] so
    moved; and a stream with the two bytes of every code swapped. *)
Definition flip_top (b : byte) : byte :=
  byte_of_char (Z.of_N (Byte.to_N b) + 128).

Definition shift_entry (e : N * Z) : N * Z := (e.1, (e.2 + 128)%Z).

Fixpoint swap_codes (bs : list byte) : list byte :=
  match bs with
  | b0 :: b1 :: rest => b1 :: b0 :: swap_codes rest
  | _ => bs
  end.

(** ** main

    The files are a map from paths to contents; an [ifstream] opens on
    a path that has a content, an [ofstream] on any path but those in
    [denied], and opening it leaves the file empty at once, also for a
    stream that already reads it. Reads and writes on open streams do
    not fail, so the handler of [std::ios_base::failure] has no part
    here, and [open()] clears the state of a stream it opens, as it
    does since C++11. *)

(** What the data model and the C++ library fix: the width of
    [unsigned long], and the text of [what()] of the [std::out_of_range]
    that [at()] throws while a given stream is read. The library chooses
    the text, and may put the index and the size in it. *)
Class Host : Type := {
  ulong_bits : N;
  ulong_bits_min : 32 ≤ ulong_bits;
  out_of_range_what : list byte → string
}.

(** Two hosts: 64 and 32 bits for [unsigned long], each with a constant
    text. *)
Definition lp64 : Host :=
  {| ulong_bits := 64; ulong_bits_min := ltac:(done);
     out_of_range_what := λ _, "vector::_M_range_check" |}.
Definition llp64 : Host :=
  {| ulong_bits := 32; ulong_bits_min := ltac:(done);
     out_of_range_what := λ _, "invalid vector subscript" |}.

Definition EXIT_SUCCESS : Z := 0.
Definition EXIT_FAILURE : Z := 1.

Definition nl : string := String (Ascii.ascii_of_nat 10) "".
Definition tab : string := String (Ascii.ascii_of_nat 9) "".

(** [void print_usage(const std::string &s = "", bool su = true)]: the
    text sent to [std::cerr]. *)
Definition print_usage (s : string) (su : bool) : string :=
  (if decide (s = "") then "" else nl +:+ "ERROR: " +:+ s +:+ nl) +:+
  (if su then
     nl +:+ "Usage:" +:+ nl +:+
     tab +:+ "program --flag input_file output_file.lzw" +:+ nl +:+ nl +:+
     "Where `flag' is either `compress' for compressing, or `decompress' for decompressing, and" +:+ nl +:+
     "`input_file' and `output_file' are distinct files." +:+ nl +:+ nl +:+
     "Examples:" +:+ nl +:+
     tab +:+ "megalzw.exe --compress input.bmp output_file.lzv" +:+ nl +:+
     tab +:+ "megalzw.exe --dcompress input_file.lzw output_file.bmp" +:+ nl
   else "") +:+
  nl.

(** [enum class Mode] *)
Inductive Mode : Set := Compress | Decompress.

(** The test of [argv[1]]. *)
Definition parse_mode (flag : string) : option Mode :=
  if decide (flag = "--compress") then Some Compress
  else if decide (flag = "--dcompress") then Some Decompress
  else None.

(** How a call of [main] ends: it returns a code, or it comes to a
    point beyond which the source fixes no return. The first three
    points are undefined behaviour in C++. At the fourth the vector of
    [rebuild_string] grows until [push_back] throws or the host ends the
    process, which the model leaves open. *)
Inductive beyond : Set :=
| NullPath          (* open() is given argv[argc], a null pointer *)
| DivisionByZero    (* InSize * 10 / OutSize with OutSize == 0 *)
| FrontOfEmpty      (* front() of an empty vector in decompress *)
| Endless.          (* the loop of rebuild_string never reaches dms *)

Inductive ending : Set :=
| Returns (code : Z)
| Beyond (why : beyond).

Record world : Type := World {
  files : gmap string (list byte);
  denied : gset string
}.

(** What a call of [main] leaves: how it ended, the files, and what it
    sent to [std::cout] and [std::cerr]. For an ending [Beyond] the
    files are those at that point. *)
Record run : Type := Run {
  status : ending;
  files_after : gmap string (list byte);
  cout : string;
  cerr : string
}.

Section main.
Context {P : Platform} {H : Host}.

(** Conversion to [unsigned long]. *)
Definition to_ulong (n : N) : N := n mod 2 ^ ulong_bits.

(** [100 - InSize * 10 / OutSize] in [unsigned long]; nothing when
    [OutSize] is 0. *)
Definition percent (InSize OutSize : N) : option N :=
  if OutSize =? 0 then None
  else Some (to_ulong (100 + 2 ^ ulong_bits - to_ulong (InSize * 10) / OutSize)).

(** [e.what()] of the exceptions thrown while [content] is read. *)
Definition what (content : list byte) (f : failure) : string :=
  match f with
  | InvalidCode => "invalid compressed code"
  | CorruptStream => "corrupted compressed file"
  | _ => out_of_range_what content
  end.

(** The size [seekg(0, end); tellg()] finds for a path. *)
Definition file_size (fs : gmap string (list byte)) (path : string) : N :=
  to_ulong (N.of_nat (length (default [] (fs !! path)))).

(** The end of the [try] block when [compress] or [decompress] has
    ended with [f] on [content]: the handler of [std::exception] for the
    three exceptions, and no return that the source fixes for the
    rest. *)
Definition thrown (content : list byte) (f : failure)
    (fs : gmap string (list byte)) : run :=
  match f with
  | EmptyFront => Run (Beyond FrontOfEmpty) fs "" ""
  | Unbounded => Run (Beyond Endless) fs "" ""
  | _ => Run (Returns EXIT_FAILURE) fs ""
             (print_usage ("Caught exception: " +:+ what content f +:+ ".") false)
  end.

(** [int main(int argc, char *argv[])], with [argv] as the list of its
    [argc] strings. *)
Definition main (argv : list string) (w : world) : run :=
  match argv with
  | _ :: flag :: input :: rest =>
      match parse_mode flag with
      | None =>
          Run (Returns EXIT_FAILURE) (files w) ""
              (print_usage ("flag `" +:+ flag +:+ "' is not recognized.") true)
      | Some m =>
          match files w !! input with
          | None =>
              Run (Returns EXIT_FAILURE) (files w) ""
                  (print_usage ("input_file `" +:+ input +:+ "' could not be opened.") true)
          | Some _ =>
              match rest with
              | [] => Run (Beyond NullPath) (files w) "" ""
              | output :: _ =>
                  if decide (output ∈ denied w) then
                    Run (Returns EXIT_FAILURE) (files w) ""
                        (print_usage ("output_file `" +:+ output +:+ "' could not be opened.") true)
                  else
                    let opened := <[output := []]> (files w) in
                    let content := default [] (opened !! input) in
                    match m with
                    | Compress =>
                        let r := Encoder.compress content in
                        let fs := <[output := written r]> opened in
                        match outcome r with
                        | Raise f => thrown content f fs
                        | Ok _ =>
                            match percent (file_size fs input) (file_size fs output) with
                            | None => Run (Beyond DivisionByZero) fs "" ""
                            | Some p =>
                                Run (Returns EXIT_SUCCESS) fs
                                    ("The file " +:+ input +:+ " is compressed by  " +:+
                                     pretty p +:+ "%" +:+ nl) ""
                            end
                        end
                    | Decompress =>
                        let r := Decoder.decompress content in
                        let fs := <[output := written r]> opened in
                        match outcome r with
                        | Raise f => thrown content f fs
                        | Ok _ =>
                            Run (Returns EXIT_SUCCESS) fs
                                ("The file " +:+ input +:+ " is decompressed." +:+ nl) ""
                        end
                    end
              end
          end
      end
  | _ =>
      Run (Returns EXIT_FAILURE) (files w) ""
          (print_usage "Wrong number of arguments." true)
  end.
End main.

(** The calls of [main] that get as far as its [try] block: at least
    three arguments after the name of the program, of which a known
    flag, an input that opens and an output that opens. *)
Definition well_called (argv : list string) (w : world) : Prop :=
  ∃ prog flag input output rest m,
    argv = prog :: flag :: input :: output :: rest ∧
    parse_mode flag = Some m ∧
    is_Some (files w !! input) ∧
    output ∉ denied w.

(** * Proofs *)

(** ** Monad laws used below *)

Lemma io_bind_IO {A B} (o : list byte) (r : result A) (k : A → io B) :
  IO o r ≫= k =
  match r with
  | Ok a => IO (o ++ written (k a)) (outcome (k a))
  | Raise f => IO o (Raise f)
  end.
Proof. by destruct r. Qed.

Lemma io_bind_ret {A B} (a : A) (k : A → io B) : mret a ≫= k = k a.
Proof. unfold mret, io_ret, mbind, io_bind; simpl. by destruct (k a). Qed.

Lemma io_bind_write {B} (bs : list byte) (k : unit → io B) :
  write bs ≫= k = IO (bs ++ written (k tt)) (outcome (k tt)).
Proof. done. Qed.

Lemma io_bind_lift_ok {A B} (a : A) (k : A → io B) : lift (Ok a) ≫= k = k a.
Proof. apply (io_bind_ret a k). Qed.

Lemma io_bind_lift_raise {A B} f (k : A → io B) :
  lift (Raise f) ≫= k = IO [] (Raise f).
Proof. done. Qed.

Ltac io_simpl :=
  repeat (progress (cbn [mbind mret io_bind io_ret result_bind result_ret
                         lift write throw written outcome fst snd app])).

Section chars_facts.
Context {P : Platform}.

Lemma byte_of_N_to_N (n : N) :
  n < 256 → Byte.to_N (default Byte.x00 (Byte.of_N n)) = n.
Proof.
  intros Hn. destruct (Byte.of_N n) as [b|] eqn:E; simpl.
  - by apply Byte.to_of_N.
  - apply Byte.of_N_None_iff in E. lia.
Qed.

Lemma to_N_lt (b : byte) : Byte.to_N b < 256.
Proof. pose proof (Byte.to_N_bounded b). lia. Qed.

Lemma byte_of_char_of_byte (b : byte) : byte_of_char (char_of_byte b) = b.
Proof.
  unfold byte_of_char, char_of_byte. pose proof (to_N_lt b) as Hb.
  assert ((Z.of_N (Byte.to_N b) - 256) mod 256 = Z.of_N (Byte.to_N b))%Z as E1.
  { symmetry. apply (Z.mod_unique _ _ (-1)); lia. }
  assert (Z.of_N (Byte.to_N b) mod 256 = Z.of_N (Byte.to_N b))%Z as E2.
  { apply Z.mod_small. lia. }
  destruct (char_is_signed && _); rewrite ?E1, ?E2, N2Z.id, Byte.of_to_N; done.
Qed.

Lemma char_of_byte_range (b : byte) : (minc ≤ char_of_byte b ≤ maxc)%Z.
Proof.
  unfold minc, maxc, char_of_byte. pose proof (to_N_lt b).
  destruct char_is_signed; simpl; [destruct (Z.leb_spec 128 (Z.of_N (Byte.to_N b)))|]; lia.
Qed.

Lemma bytes_code_code_bytes (i : N) :
  i < 65536 →
  ∃ b0 b1, code_bytes i = [b0; b1] ∧ bytes_code b0 b1 = i.
Proof.
  intros Hi. unfold code_bytes, bytes_code.
  assert (i mod 256 < 256) as Hlo by (apply N.mod_lt; lia).
  assert ((i / 256) mod 256 = i / 256) as Hhi.
  { apply N.mod_small. apply N.Div0.div_lt_upper_bound; lia. }
  assert (i / 256 < 256) as Hhi' by (apply N.Div0.div_lt_upper_bound; lia).
  pose proof (N.div_mod i 256 ltac:(lia)) as Hdm.
  destruct little_endian; eexists _, _; (split; [reflexivity|]);
    rewrite Hhi, !byte_of_N_to_N by done; lia.
Qed.

Lemma char_range_length : length char_range = 256%nat.
Proof. unfold char_range, minc, maxc. rewrite length_seqZ. by destruct char_is_signed. Qed.

Lemma char_range_lookup (n : nat) :
  (n < 256)%nat → char_range !! n = Some (minc + Z.of_nat n)%Z.
Proof.
  intros Hn. unfold char_range. apply lookup_seqZ. split; [done|].
  unfold minc, maxc. destruct char_is_signed; lia.
Qed.
End chars_facts.

(** ** Strings of codes *)

Section decodes_facts.
Context {P : Platform}.
Implicit Types (d : list (N * Z)) (k p : N) (s : list Z).

Lemma decodes_lookup d k s : decodes d k s → (N.to_nat k < length d)%nat.
Proof. destruct 1; by eapply lookup_lt_Some. Qed.

Lemma decodes_not_dms d k s : decodes d k s → k ≠ globals.dms.
Proof. by destruct 1. Qed.

Lemma decodes_nonempty d k s : decodes d k s → s ≠ [].
Proof. destruct 1 as [|???[|]]; done. Qed.

Lemma decodes_length d k s : decodes d k s → (length s ≤ N.to_nat k + 1)%nat.
Proof.
  induction 1 as [|k p c s _ Hp _ _ IH]; simpl; [lia|].
  rewrite length_app. simpl. lia.
Qed.

Lemma decodes_inj d k s s' : decodes d k s → decodes d k s' → s = s'.
Proof.
  intros H. revert s'. induction H as [k c Hk _|k p c s Hk Hp _ H IH];
    intros s' H'; destruct H' as [k c' Hk' _|k p' c' s' Hk' _ _ H']; simplify_eq.
  - done.
  - by apply decodes_not_dms in H'.
  - by apply decodes_not_dms in H.
  - f_equal. by apply IH.
Qed.

Lemma decodes_app d e k s : decodes d k s → decodes (d ++ e) k s.
Proof.
  induction 1; [apply decodes_base|eapply decodes_ext]; eauto using lookup_app_l_Some.
Qed.

Lemma decodes_restrict d e k s :
  decodes (d ++ e) k s → (N.to_nat k < length d)%nat → decodes d k s.
Proof.
  induction 1 as [k c Hk ?|k p c s Hk Hp ? _ IH]; intros Hlt;
    rewrite lookup_app_l in Hk by done.
  - by apply decodes_base.
  - eapply decodes_ext; eauto. apply IH. lia.
Qed.

Lemma decodes_head_ext d p c s :
  decodes d p s → head (s ++ [c]) = head s.
Proof. intros H. apply decodes_nonempty in H. by destruct s. Qed.

Lemma rebuild_loop_decodes d k s :
  decodes d k s →
  ∀ fuel acc, (length s < fuel)%nat →
    Decoder.rebuild_loop fuel d k acc = Ok (acc ++ rev s).
Proof.
  induction 1 as [k c Hk Hne|k p c s Hk Hp Hne _ IH]; intros fuel acc Hf;
    (destruct fuel as [|fuel]; [simpl in Hf; lia|]); simpl;
    apply N.eqb_neq in Hne; rewrite Hne;
    unfold Decoder.vector_at; rewrite Hk; simpl.
  - destruct fuel as [|fuel]; [simpl in Hf; lia|]. done.
  - rewrite IH by (rewrite length_app in Hf; simpl in Hf; lia).
    by rewrite rev_unit, <-app_assoc.
Qed.

Lemma rebuild_string_decodes d k s :
  decodes d k s → Decoder.rebuild_string d k = Ok s.
Proof.
  intros H. unfold Decoder.rebuild_string.
  rewrite (rebuild_loop_decodes d k s H).
  - simpl. by rewrite rev_involutive.
  - pose proof (decodes_length _ _ _ H). pose proof (decodes_lookup _ _ _ H). lia.
Qed.
End decodes_facts.

(** ** The base alphabet *)

Section base_facts.
Context {P : Platform}.

Lemma dms_value : globals.dms = 65535.
Proof. done. Qed.

Lemma to_CodeType_small (n : nat) : N.of_nat n < 65536 → to_CodeType n = N.of_nat n.
Proof. intros. by apply N.mod_small. Qed.

Lemma foldl_push {A B} (f : B → A) (l : list B) (acc : list A) :
  foldl (λ d c, d ++ [f c]) acc l = acc ++ (f <$> l).
Proof.
  revert acc. induction l as [|c l IH]; intros acc; simpl.
  - by rewrite app_nil_r.
  - by rewrite IH, <-app_assoc.
Qed.

Lemma decoder_reset_map :
  Decoder.reset_dictionary = (λ c, (globals.dms, c)) <$> char_range.
Proof. unfold Decoder.reset_dictionary. by rewrite foldl_push. Qed.

Lemma decoder_reset_length : length Decoder.reset_dictionary = 256%nat.
Proof. by rewrite decoder_reset_map, length_fmap, char_range_length. Qed.

Lemma decoder_reset_lookup (n : nat) :
  (n < 256)%nat →
  Decoder.reset_dictionary !! n = Some (globals.dms, (minc + Z.of_nat n)%Z).
Proof.
  intros Hn. by rewrite decoder_reset_map, list_lookup_fmap, char_range_lookup.
Qed.

Lemma decoder_reset_lookup_inv (n : nat) p c :
  Decoder.reset_dictionary !! n = Some (p, c) →
  (n < 256)%nat ∧ p = globals.dms ∧ c = (minc + Z.of_nat n)%Z.
Proof.
  intros H. assert (n < 256)%nat as Hn.
  { apply lookup_lt_Some in H. by rewrite decoder_reset_length in H. }
  rewrite decoder_reset_lookup in H by done. by simplify_eq.
Qed.

Lemma base_code_lt (c : Z) : (minc ≤ c ≤ maxc)%Z → base_code c < 256.
Proof. unfold base_code, minc, maxc. destruct char_is_signed; lia. Qed.

Lemma decoder_reset_base_code (c : Z) :
  (minc ≤ c ≤ maxc)%Z →
  Decoder.reset_dictionary !! N.to_nat (base_code c) = Some (globals.dms, c).
Proof.
  intros Hc. pose proof (base_code_lt c Hc).
  rewrite decoder_reset_lookup by lia. do 2 f_equal. unfold base_code. lia.
Qed.
End base_facts.

(** ** The map of the encoder against the vector of the decoder *)

Section corr_facts.
Context {P : Platform}.
Implicit Types (m : gmap (N * Z) N) (d : list (N * Z)).

Lemma corr_empty : corr ∅ [].
Proof. split; [done|]. intros key j. by rewrite lookup_empty, lookup_nil. Qed.

Lemma corr_size m d : corr m d → size m = length d.
Proof. by intros [? _]. Qed.

Lemma corr_lookup m d key j : corr m d → m !! key = Some j → d !! N.to_nat j = Some key.
Proof. intros [_ H]. apply H. Qed.

Lemma corr_lookup_inv m d key (n : nat) :
  corr m d → d !! n = Some key → m !! key = Some (N.of_nat n).
Proof. intros [_ H] Hn. apply H. by rewrite Nat2N.id. Qed.

Lemma corr_insert m d key :
  corr m d → m !! key = None → N.of_nat (length d) < 65536 →
  corr (<[key := to_CodeType (size m)]> m) (d ++ [key]).
Proof.
  intros [Hsz H] Hnone Hlt. split.
  - rewrite map_size_insert_None, length_app by done. simpl. lia.
  - intros key' j. rewrite Hsz, to_CodeType_small by done.
    destruct (decide (key = key')) as [<-|Hne].
    + rewrite lookup_insert_eq. split.
      * intros [= <-]. rewrite Nat2N.id. by apply list_lookup_middle.
      * intros Hj. f_equal.
        destruct (decide (N.to_nat j < length d)%nat) as [Hjd|Hjd].
        -- rewrite lookup_app_l in Hj by done. apply H in Hj. congruence.
        -- apply lookup_lt_Some in Hj. rewrite length_app in Hj. simpl in Hj. lia.
    + rewrite lookup_insert_ne by done. rewrite H. split.
      * apply lookup_app_l_Some.
      * intros Hj. destruct (decide (N.to_nat j < length d)%nat) as [Hjd|Hjd].
        -- by rewrite lookup_app_l in Hj.
        -- rewrite lookup_app_r in Hj by lia.
           destruct (N.to_nat j - length d)%nat; simpl in Hj; [congruence|].
           by rewrite lookup_nil in Hj.
Qed.

Lemma corr_foldl (l : list Z) : ∀ m d,
  corr m d → NoDup l → (∀ c, c ∈ l → m !! (globals.dms, c) = None) →
  N.of_nat (length d + length l) ≤ 65536 →
  corr (foldl (λ (dictionary : gmap (N * Z) N) c,
                 let dictionary_size := to_CodeType (size dictionary) in
                 <[(globals.dms, c) := dictionary_size]> dictionary) m l)
       (d ++ ((λ c, (globals.dms, c)) <$> l)).
Proof.
  induction l as [|c l IH]; intros m d Hc Hnd Hfresh Hlen; simpl.
  - by rewrite app_nil_r.
  - apply NoDup_cons in Hnd as [Hc_l Hnd]. simpl in Hlen.
    rewrite cons_middle, app_assoc.
    apply IH; [|done| |rewrite length_app; simpl; lia].
    + apply corr_insert; [done| |lia]. apply Hfresh. by left.
    + intros c' Hc'. rewrite lookup_insert_ne.
      * apply Hfresh. by right.
      * intros [= ->]. done.
Qed.

Lemma corr_reset : corr Encoder.reset_dictionary Decoder.reset_dictionary.
Proof.
  rewrite decoder_reset_map. unfold Encoder.reset_dictionary.
  apply (corr_foldl char_range ∅ []).
  - apply corr_empty.
  - apply NoDup_seqZ.
  - intros. apply lookup_empty.
  - rewrite char_range_length. simpl. lia.
Qed.

Lemma encoder_reset_size : size Encoder.reset_dictionary = 256%nat.
Proof. by rewrite (corr_size _ _ corr_reset), decoder_reset_length. Qed.
End corr_facts.

(** ** Well-formed dictionaries *)

Section wf_facts.
Context {P : Platform}.
Implicit Types (d : list (N * Z)) (k p : N) (s : list Z).

Lemma wf_length d : wf d → (256 ≤ length d)%nat.
Proof.
  intros [[ext ->] _ _]. rewrite length_app, decoder_reset_length. lia.
Qed.

Lemma wf_lookup_base d (n : nat) :
  wf d → (n < 256)%nat → d !! n = Some (globals.dms, (minc + Z.of_nat n)%Z).
Proof.
  intros [[ext ->] _ _] Hn. apply lookup_app_l_Some. by apply decoder_reset_lookup.
Qed.

Lemma wf_lookup_base_code d (c : Z) :
  wf d → (minc ≤ c ≤ maxc)%Z → d !! N.to_nat (base_code c) = Some (globals.dms, c).
Proof.
  intros [[ext ->] _ _] Hc. apply lookup_app_l_Some. by apply decoder_reset_base_code.
Qed.

Lemma wf_lookup_dms d (n : nat) c :
  wf d → d !! n = Some (globals.dms, c) → (n < 256)%nat.
Proof.
  intros Hwf Hn. destruct (decide (n < 256)%nat) as [|Hge]; [done|].
  pose proof (wf_ext d Hwf n _ _ Hn ltac:(lia)) as Hlt.
  pose proof (wf_size d Hwf). apply lookup_lt_Some in Hn. lia.
Qed.

Lemma wf_reset : wf Decoder.reset_dictionary.
Proof.
  split.
  - exists []. by rewrite app_nil_r.
  - rewrite decoder_reset_length, dms_value. lia.
  - intros n p c Hn Hge. apply decoder_reset_lookup_inv in Hn. lia.
Qed.

Lemma wf_snoc d p c :
  wf d → N.of_nat (length d) < globals.dms → p < N.of_nat (length d) →
  wf (d ++ [(p, c)]).
Proof.
  intros Hwf Hlt Hp. split.
  - destruct (wf_base d Hwf) as [ext ->]. exists (ext ++ [(p, c)]).
    by rewrite app_assoc.
  - rewrite length_app. simpl. lia.
  - intros n p' c' Hn Hge.
    destruct (decide (n < length d)%nat) as [Hnd|Hnd].
    + rewrite lookup_app_l in Hn by done. by eapply wf_ext.
    + pose proof (lookup_lt_Some _ _ _ Hn) as Hn'. rewrite length_app in Hn'.
      simpl in Hn'. assert (n = length d) as -> by lia.
      rewrite list_lookup_middle in Hn by done. by simplify_eq.
Qed.

Lemma wf_decodes_base d k :
  wf d → k < 256 → decodes d k [(minc + Z.of_N k)%Z].
Proof.
  intros Hwf Hk. apply decodes_base.
  - rewrite (wf_lookup_base d (N.to_nat k)) by (done || lia).
    by rewrite N_nat_Z.
  - rewrite dms_value. lia.
Qed.

Lemma wf_decodes_base_code d c :
  wf d → (minc ≤ c ≤ maxc)%Z → decodes d (base_code c) [c].
Proof.
  intros Hwf Hc. apply decodes_base.
  - by apply wf_lookup_base_code.
  - pose proof (base_code_lt c Hc). rewrite dms_value. lia.
Qed.

Lemma wf_decodes_total d k :
  wf d → (N.to_nat k < length d)%nat → ∃ s, decodes d k s.
Proof.
  intros Hwf. induction k as [k IH] using (well_founded_induction N.lt_wf_0).
  intros Hk. destruct (decide (k < 256)) as [Hb|Hb].
  - eexists. by apply wf_decodes_base.
  - destruct (lookup_lt_is_Some_2 d _ Hk) as [[p c] Hpc].
    pose proof (wf_ext d Hwf _ _ _ Hpc ltac:(lia)) as Hp.
    rewrite N2Nat.id in Hp.
    destruct (IH p Hp ltac:(lia)) as [s Hs].
    exists (s ++ [c]). eapply decodes_ext; eauto.
    pose proof (wf_size d Hwf). lia.
Qed.
End wf_facts.

(** ** One code through the decoder *)

Section decoder_step.
Context {P : Platform}.
Implicit Types (d : list (N * Z)) (k p : N) (s : list Z).

Lemma front_head s c : head s = Some c → Decoder.front s = Ok c.
Proof. destruct s; simpl; [done|]. by intros [= ->]. Qed.

Lemma decode_next d j c0 k w :
  wf (d ++ [(j, c0)]) →
  decodes (d ++ [(j, c0)]) k w →
  head w = Some c0 →
  (N.to_nat j < length d)%nat →
  Decoder.decode d j k = Ok (d ++ [(j, c0)], w).
Proof.
  intros Hwf Hw Hhd Hj. unfold Decoder.decode.
  pose proof (wf_size _ Hwf) as Hsz. rewrite length_app in Hsz. simpl in Hsz.
  assert (j ≠ globals.dms) as Hjd by lia.
  destruct (wf_decodes_total _ j Hwf) as [sj Hsj].
  { rewrite length_app. lia. }
  pose proof (decodes_restrict _ _ _ _ Hsj Hj) as Hsj'.
  destruct (N.eqb_spec k (N.of_nat (length d))) as [->|Hne].
  - (* the entry [k] stands for is the one the decoder lacks *)
    rewrite (rebuild_string_decodes _ _ _ Hsj'). simpl.
    assert (w = sj ++ [c0]) as ->.
    { inversion Hw as [k c Hk _|k p c s Hk _ _ Hs]; subst;
        rewrite Nat2N.id, list_lookup_middle in Hk by done; simplify_eq.
      f_equal. eapply decodes_inj; eauto. }
    rewrite (decodes_head_ext _ _ c0 _ Hsj) in Hhd.
    rewrite (front_head _ _ Hhd). simpl.
    by rewrite (rebuild_string_decodes _ _ _ Hw).
  - pose proof (decodes_lookup _ _ _ Hw) as Hk. rewrite length_app in Hk. simpl in Hk.
    assert (N.to_nat k < length d)%nat as Hk' by lia.
    rewrite (rebuild_string_decodes _ _ _ (decodes_restrict _ _ _ _ Hw Hk')). simpl.
    apply N.eqb_neq in Hjd. rewrite Hjd.
    by rewrite (front_head _ _ Hhd).
Qed.

Lemma decoder_step_next sd c0 k w :
  wf (Decoder.current sd ++ [(Decoder.i sd, c0)]) →
  decodes (Decoder.current sd ++ [(Decoder.i sd, c0)]) k w →
  head w = Some c0 →
  (N.to_nat (Decoder.i sd) < length (Decoder.current sd))%nat →
  Decoder.step sd k =
    IO (byte_of_char <$> w)
       (Ok {| Decoder.dictionary := Decoder.current sd ++ [(Decoder.i sd, c0)];
              Decoder.i := k |}).
Proof.
  intros Hwf Hw Hhd Hj. unfold Decoder.step.
  pose proof (decodes_lookup _ _ _ Hw) as Hk. rewrite length_app in Hk. simpl in Hk.
  destruct (N.ltb_spec (N.of_nat (length (Decoder.current sd))) k) as [|_]; [lia|].
  rewrite (decode_next _ _ _ _ _ Hwf Hw Hhd Hj).
  io_simpl. rewrite (front_head _ _ Hhd). io_simpl. by rewrite app_nil_r.
Qed.
End decoder_step.

(** ** The loop of [rebuild_string] *)

Section rebuild_facts.
Context {P : Platform}.
Implicit Types (d : list (N * Z)) (k p : N) (s : list Z).

Lemma rebuild_loop_S fuel d k s :
  Decoder.rebuild_loop (S fuel) d k s =
    if k =? globals.dms then Ok s
    else e ← Decoder.vector_at d k; Decoder.rebuild_loop fuel d e.1 (s ++ [e.2]).
Proof. done. Qed.

Lemma rebuild_loop_acc fuel : ∀ d k s0 s,
  Decoder.rebuild_loop fuel d k (s0 ++ s) =
    match Decoder.rebuild_loop fuel d k s with
    | Ok r => Ok (s0 ++ r)
    | Raise f => Raise f
    end.
Proof.
  induction fuel as [|fuel IH]; intros d k s0 s; simpl; [done|].
  destruct (k =? globals.dms); [done|].
  destruct (Decoder.vector_at d k) as [e|f]; simpl; [|done].
  by rewrite <-app_assoc, IH.
Qed.

(** A walk that ends is the same with more fuel and in a dictionary
    that has grown. *)
Lemma rebuild_loop_grow fuel : ∀ fuel' d e k s r,
  Decoder.rebuild_loop fuel d k s = Ok r → (fuel ≤ fuel')%nat →
  Decoder.rebuild_loop fuel' (d ++ e) k s = Ok r.
Proof.
  induction fuel as [|fuel IH]; intros fuel' d e k s r; [done|].
  intros H Hf. destruct fuel' as [|fuel']; [lia|]. revert H.
  cbn [Decoder.rebuild_loop]. destruct (k =? globals.dms); [done|].
  unfold Decoder.vector_at.
  destruct (d !! N.to_nat k) as [en|] eqn:E; simpl; [|done].
  rewrite (lookup_app_l_Some _ _ _ _ E). simpl. intros H. apply IH; [done|lia].
Qed.

Lemma rebuild_loop_nonempty fuel : ∀ d k s r,
  Decoder.rebuild_loop fuel d k s = Ok r → k ≠ globals.dms → r ≠ [].
Proof.
  intros d k s r H Hk. destruct fuel as [|fuel]; [done|]. simpl in H.
  apply N.eqb_neq in Hk. rewrite Hk in H.
  destruct (Decoder.vector_at d k) as [e|f]; simpl in H; [|done].
  rewrite <-(app_nil_r (s ++ [e.2])), rebuild_loop_acc in H.
  destruct (Decoder.rebuild_loop fuel d e.1 []); simplify_eq.
  by destruct s.
Qed.

Lemma rebuild_string_nonempty d k s :
  Decoder.rebuild_string d k = Ok s → k ≠ globals.dms → s ≠ [].
Proof.
  unfold Decoder.rebuild_string.
  destruct (Decoder.rebuild_loop _ d k []) as [r|f] eqn:E; simpl; [|done].
  intros [= <-] Hk. apply (rebuild_loop_nonempty _ _ _ _ _ E) in Hk.
  destruct r as [|c r]; [done|]. simpl. by destruct (rev r).
Qed.

Lemma rebuild_string_dms d : Decoder.rebuild_string d globals.dms = Ok [].
Proof. done. Qed.

(** The string of a code just pushed is the string of its prefix and
    one more char. *)
Lemma rebuild_string_pushed d i c prev :
  N.of_nat (length d) ≠ globals.dms →
  Decoder.rebuild_string d i = Ok prev →
  Decoder.rebuild_string (d ++ [(i, c)]) (N.of_nat (length d)) = Ok (prev ++ [c]).
Proof.
  intros Hk Hprev.
  assert (Decoder.rebuild_loop (S (length d)) d i [] = Ok (rev prev)) as E.
  { revert Hprev. unfold Decoder.rebuild_string.
    destruct (Decoder.rebuild_loop _ d i []) as [r|f]; simpl; [|done].
    intros [= <-]. by rewrite rev_involutive. }
  unfold Decoder.rebuild_string. rewrite length_app. cbn [length].
  replace (length d + 1)%nat with (S (length d)) by lia.
  rewrite rebuild_loop_S. apply N.eqb_neq in Hk. rewrite Hk.
  unfold Decoder.vector_at. rewrite Nat2N.id, list_lookup_middle by done.
  cbn [mbind result_bind fst snd app].
  rewrite <-(app_nil_r [c]), rebuild_loop_acc.
  rewrite (rebuild_loop_grow _ _ _ _ _ _ _ E) by lia.
  cbn [mbind mret result_bind result_ret].
  by rewrite rev_app_distr, rev_involutive.
Qed.
End rebuild_facts.

(** ** The fuel of [rebuild_string] *)

Section fuel_facts.
Context {P : Platform}.
Implicit Types (d : list (N * Z)) (k p : N) (s : list Z).

Lemma follows_det d k p p' : follows d k p → follows d k p' → p = p'.
Proof. destruct 1, 1. congruence. Qed.

Lemma follows_cycle d k p : follows d k p → tc (follows d) k k → tc (follows d) p p.
Proof.
  intros Hkp Hcyc. inversion Hcyc as [? ? Hk|? y ? Hk Hyk]; subst.
  - rewrite (follows_det _ _ _ _ Hkp Hk). by apply tc_once.
  - rewrite (follows_det _ _ _ _ Hkp Hk). by eapply tc_r.
Qed.

Lemma tc_follows_first d k k' : tc (follows d) k k' → ∃ p, follows d k p.
Proof. destruct 1; eauto. Qed.

Lemma rebuild_loop_follows fuel d k p s :
  follows d k p →
  (∀ s', Decoder.rebuild_loop fuel d p s' = Raise Unbounded) →
  Decoder.rebuild_loop (S fuel) d k s = Raise Unbounded.
Proof.
  intros [k' p' c Hk Hpc] Hp. rewrite rebuild_loop_S.
  apply N.eqb_neq in Hk. rewrite Hk. unfold Decoder.vector_at. rewrite Hpc.
  apply Hp.
Qed.

(** On a cycle of prefixes the loop never ends, whatever the fuel. *)
Lemma rebuild_loop_cycle fuel : ∀ d k s,
  tc (follows d) k k → Decoder.rebuild_loop fuel d k s = Raise Unbounded.
Proof.
  induction fuel as [|fuel IH]; intros d k s Hcyc; [done|].
  destruct (tc_follows_first _ _ _ Hcyc) as [p Hkp].
  apply (rebuild_loop_follows _ _ _ p); [done|].
  intros s'. apply IH. by eapply follows_cycle.
Qed.

Lemma rebuild_loop_visited fuel : ∀ d k s (vs : list N),
  NoDup vs →
  (∀ v, v ∈ vs → (N.to_nat v < length d)%nat ∧ tc (follows d) v k) →
  (length d < length vs + fuel)%nat →
  Decoder.rebuild_loop fuel d k s = Raise Unbounded →
  ∀ fuel' s', Decoder.rebuild_loop fuel' d k s' = Raise Unbounded.
Proof.
  induction fuel as [|fuel IH]; intros d k s vs Hnd Hvs Hlen Hrun.
  - (* more distinct entries visited than the dictionary holds *)
    exfalso.
    assert (N.to_nat <$> vs ⊆+ seq 0 (length d)) as Hsub.
    { apply NoDup_submseteq.
      - by apply (NoDup_fmap_2 N.to_nat).
      - intros n (v & -> & Hv)%list_elem_of_fmap. apply elem_of_seq.
        destruct (Hvs v Hv). lia. }
    apply submseteq_length in Hsub. rewrite length_fmap, length_seq in Hsub. lia.
  - rewrite rebuild_loop_S in Hrun.
    destruct (N.eqb_spec k globals.dms) as [|Hk]; [done|].
    unfold Decoder.vector_at in Hrun.
    destruct (d !! N.to_nat k) as [[p c]|] eqn:Hpc; [|done].
    cbn [mbind result_bind fst snd] in Hrun.
    assert (follows d k p) as Hkp by by econstructor.
    destruct (decide (k ∈ vs)) as [Hin|Hout].
    + intros fuel' s'. apply rebuild_loop_cycle. by apply Hvs.
    + assert (∀ fuel' s', Decoder.rebuild_loop fuel' d p s' = Raise Unbounded) as Hp.
      { apply (IH d p (s ++ [c]) (k :: vs)); [by constructor| |simpl; lia|done].
        intros v [->|Hv]%elem_of_cons.
        - split; [by eapply lookup_lt_Some|by apply tc_once].
        - destruct (Hvs v Hv) as [Hlt Hvk]. split; [done|by eapply tc_r]. }
      intros [|fuel'] s'; [done|]. by apply (rebuild_loop_follows _ _ _ p).
Qed.

(** The fuel of [rebuild_string] is exact: when it runs out, the loop of
    the source never reaches [dms]. *)
Lemma rebuild_loop_unbounded d k s :
  Decoder.rebuild_loop (S (length d)) d k s = Raise Unbounded →
  ∀ fuel s', Decoder.rebuild_loop fuel d k s' = Raise Unbounded.
Proof.
  apply (rebuild_loop_visited _ d k s []);
    [constructor|by intros v ?%elem_of_nil|simpl; lia].
Qed.

Lemma rebuild_loop_more fuel : ∀ fuel' d k s,
  Decoder.rebuild_loop fuel d k s ≠ Raise Unbounded → (fuel ≤ fuel')%nat →
  Decoder.rebuild_loop fuel' d k s = Decoder.rebuild_loop fuel d k s.
Proof.
  induction fuel as [|fuel IH]; intros fuel' d k s Hrun Hle; [done|].
  destruct fuel' as [|fuel']; [lia|]. revert Hrun. rewrite !rebuild_loop_S.
  destruct (k =? globals.dms); [done|].
  destruct (Decoder.vector_at d k) as [e|f]; cbn [mbind result_bind]; [|done].
  intros Hrun. apply IH; [done|lia].
Qed.

(** And a loop that ends, by reaching [dms] or by [at()] throwing, ends
    the same way within that fuel. *)
Lemma rebuild_loop_exact fuel d k s :
  Decoder.rebuild_loop fuel d k s ≠ Raise Unbounded →
  Decoder.rebuild_loop (S (length d)) d k s = Decoder.rebuild_loop fuel d k s.
Proof.
  intros Hrun.
  assert (Decoder.rebuild_loop (S (length d)) d k s ≠ Raise Unbounded) as Hrun'.
  { intros E. by apply Hrun, (rebuild_loop_unbounded d k s E). }
  destruct (decide (fuel ≤ S (length d))%nat).
  - by apply rebuild_loop_more.
  - symmetry. apply rebuild_loop_more; [done|lia].
Qed.
End fuel_facts.


(** ** One byte through the encoder *)

Section encoder_step.
Context {P : Platform}.
Implicit Types (d : list (N * Z)) (m : gmap (N * Z) N) (k p : N) (s : list Z).

Lemma encoder_step_present se c j :
  Encoder.current se !! (Encoder.i se, c) = Some j →
  Encoder.step se c =
    IO [] (Ok {| Encoder.dictionary := Encoder.current se; Encoder.i := j |}).
Proof.
  intros H. unfold Encoder.step, Encoder.map_at. rewrite !H. by io_simpl.
Qed.

Lemma encoder_step_insert se c d :
  corr (Encoder.current se) d → wf d →
  N.of_nat (length d) < globals.dms →
  Encoder.current se !! (Encoder.i se, c) = None →
  (N.to_nat (Encoder.i se) < length d)%nat →
  (minc ≤ c ≤ maxc)%Z →
  ∃ m, Encoder.step se c =
         IO (code_bytes (Encoder.i se))
            (Ok {| Encoder.dictionary := m; Encoder.i := base_code c |}) ∧
       size m = S (size (Encoder.current se)) ∧
       corr m (d ++ [(Encoder.i se, c)]) ∧
       wf (d ++ [(Encoder.i se, c)]).
Proof.
  intros Hcorr Hwf Hlt Hnone Hi Hc.
  assert (wf (d ++ [(Encoder.i se, c)])) as Hwf' by (apply wf_snoc; [done..|lia]).
  assert (corr (<[(Encoder.i se, c) := to_CodeType (size (Encoder.current se))]>
                  (Encoder.current se)) (d ++ [(Encoder.i se, c)])) as Hcorr'.
  { apply corr_insert; [done..|]. rewrite dms_value in Hlt. lia. }
  eexists. split; [|split; [|split]]; [|by apply map_size_insert_None|done..].
  unfold Encoder.step, Encoder.map_at. rewrite Hnone.
  rewrite (corr_lookup_inv _ _ _ _ Hcorr' (wf_lookup_base_code _ c Hwf' Hc)).
  io_simpl. by rewrite app_nil_r, N2Nat.id.
Qed.

Lemma encoder_current_full se :
  Encoder.at_capacity se = true → Encoder.current se = Encoder.reset_dictionary.
Proof. unfold Encoder.current. by intros ->. Qed.

Lemma encoder_current_room se :
  Encoder.at_capacity se = false → Encoder.current se = Encoder.dictionary se.
Proof. unfold Encoder.current. by intros ->. Qed.

Lemma decoder_current_full sd :
  Decoder.at_capacity sd = true → Decoder.current sd = Decoder.reset_dictionary.
Proof. unfold Decoder.current. by intros ->. Qed.

Lemma decoder_current_room sd :
  Decoder.at_capacity sd = false → Decoder.current sd = Decoder.dictionary sd.
Proof. unfold Decoder.current. by intros ->. Qed.

Lemma reset_lookup_prefix p c j :
  Encoder.reset_dictionary !! (p, c) = Some j → p = globals.dms.
Proof.
  intros H. apply (corr_lookup _ _ _ _ corr_reset) in H.
  by apply decoder_reset_lookup_inv in H as (_ & -> & _).
Qed.

(** What one input byte does to a pair of states in [sim]: either the
    match grows and nothing is written, or the pending code is written
    and the decoder, reading it, learns the entry it lacked. *)
Lemma sim_step se sd c0 w (b : byte) :
  sim se sd c0 w →
  (∃ se',
      Encoder.step se (char_of_byte b) = IO [] (Ok se') ∧
      sim se' sd c0 (w ++ [char_of_byte b]) ∧
      Encoder.at_capacity se = false ∧
      size (Encoder.dictionary se') = size (Encoder.current se)) ∨
  (∃ se' sd',
      Encoder.step se (char_of_byte b) = IO (code_bytes (Encoder.i se)) (Ok se') ∧
      Decoder.step sd (Encoder.i se) = IO (byte_of_char <$> w) (Ok sd') ∧
      sim se' sd' (char_of_byte b) [char_of_byte b] ∧
      Encoder.i se < 65536 ∧
      size (Encoder.dictionary se') = S (size (Encoder.current se)) ∧
      length (Decoder.dictionary sd') = S (length (Decoder.current sd)) ∧
      Decoder.at_capacity sd' = Encoder.at_capacity se).
Proof.
  intros [Hhd Hcorr Hwf Hw Hprev Hfull].
  pose proof (char_of_byte_range b) as Hc.
  set (c := char_of_byte b) in *.
  set (L := Decoder.current sd ++ [(Decoder.i sd, c0)]) in *.
  pose proof (decodes_lookup _ _ _ Hw) as Hi.
  pose proof (wf_size _ Hwf) as Hsz.
  pose proof (decoder_step_next sd c0 _ w Hwf Hw Hhd Hprev) as Hdec.
  fold L in Hdec.
  set (sd' := {| Decoder.dictionary := L; Decoder.i := Encoder.i se |}) in *.
  assert (Decoder.at_capacity sd' = Encoder.at_capacity se) as Hcap.
  { unfold Decoder.at_capacity, Encoder.at_capacity. simpl.
    by rewrite (corr_size _ _ Hcorr). }
  assert (Encoder.i se < 65536) as Hi16 by (rewrite dms_value in Hsz; lia).
  assert (length L = S (length (Decoder.current sd))) as HlenL.
  { unfold L. rewrite length_app. simpl. lia. }
  destruct (Encoder.at_capacity se) eqn:Hfull'.
  - (* the dictionary is full: reset, then the pending code is a fresh prefix *)
    right. specialize (Hfull eq_refl).
    destruct (encoder_step_insert se c Decoder.reset_dictionary)
      as (m & Hstep & Hsize & Hcorr' & Hwf'); try done.
    + rewrite encoder_current_full by done. apply corr_reset.
    + apply wf_reset.
    + rewrite decoder_reset_length, dms_value. lia.
    + rewrite encoder_current_full by done.
      destruct (Encoder.reset_dictionary !! (Encoder.i se, c)) eqn:E; [|done].
      apply reset_lookup_prefix in E. rewrite dms_value in E. lia.
    + rewrite decoder_reset_length. lia.
    + eexists _, sd'. split; [done|]. split; [done|].
      split; [|done].
      assert (Decoder.current sd' = Decoder.reset_dictionary) as Hcur
        by by apply decoder_current_full.
      split; simpl; rewrite ?Hcur; try done.
      * by apply wf_decodes_base_code.
      * rewrite decoder_reset_length. lia.
      * intros _. by apply base_code_lt.
  - rewrite encoder_current_room in * by done.
    destruct (Encoder.dictionary se !! (Encoder.i se, c)) as [i2|] eqn:E.
    + (* the match grows *)
      left. exists {| Encoder.dictionary := Encoder.dictionary se; Encoder.i := i2 |}.
      split; [|split; [|done]].
      { rewrite (encoder_step_present se c i2) by by rewrite encoder_current_room.
        by rewrite encoder_current_room. }
      pose proof (corr_lookup _ _ _ _ Hcorr E) as Hi2.
      assert (¬ (N.to_nat i2 < 256)%nat) as Hge.
      { intros Hlt. rewrite (wf_lookup_base _ _ Hwf Hlt) in Hi2.
        apply decodes_not_dms in Hw. congruence. }
      pose proof (wf_ext _ Hwf _ _ _ Hi2 ltac:(lia)) as Hlt.
      apply lookup_lt_Some in Hi2 as Hi2'.
      split; simpl; try done.
      * apply decodes_nonempty in Hw. by destruct w.
      * eapply decodes_ext; eauto; lia.
      * unfold Encoder.at_capacity. simpl. fold (Encoder.at_capacity se).
        by rewrite Hfull'.
    + (* the pending code is written and a new entry made *)
      right.
      assert (N.of_nat (length L) < globals.dms) as Hroom.
      { unfold Encoder.at_capacity in Hfull'. apply N.eqb_neq in Hfull'.
        rewrite (corr_size _ _ Hcorr) in Hfull'. lia. }
      destruct (encoder_step_insert se c L)
        as (m & Hstep & Hsize & Hcorr' & Hwf'); try done.
      * by rewrite encoder_current_room.
      * by rewrite encoder_current_room.
      * rewrite encoder_current_room in Hsize by done.
        eexists _, sd'. split; [done|]. split; [done|].
        split; [|done].
        assert (Decoder.current sd' = L) as Hcur.
        { apply decoder_current_room. by rewrite Hcap. }
        split; simpl; rewrite ?Hcur; try done.
        -- by apply wf_decodes_base_code.
        -- intros _. by apply base_code_lt.
Qed.
End encoder_step.

(** ** The two loops side by side *)

Section runs.
Context {P : Platform}.
Implicit Types (d : list (N * Z)) (k p : N) (s : list Z).

Lemma decoder_loop_code sd k rest :
  k < 65536 →
  Decoder.loop sd (code_bytes k ++ rest) =
    Decoder.step sd k ≫= λ sd', Decoder.loop sd' rest.
Proof.
  intros Hk. destruct (bytes_code_code_bytes k Hk) as (b0 & b1 & -> & Hb).
  simpl. by rewrite Hb.
Qed.

Lemma of_decompress_code sd k rest g :
  k < 65536 →
  ResetPoints.of_decompress sd (code_bytes k ++ rest) g =
    (if Decoder.at_capacity sd then [g] else []) ++
    match outcome (Decoder.step sd k) with
    | Ok sd' =>
        ResetPoints.of_decompress sd' rest
          (g + (length (Decoder.dictionary sd') - length (Decoder.current sd)))
    | Raise _ => []
    end.
Proof.
  intros Hk. destruct (bytes_code_code_bytes k Hk) as (b0 & b1 & -> & Hb).
  simpl. by rewrite Hb.
Qed.

Lemma of_compress_cons se b xs g o se' :
  Encoder.step se (char_of_byte b) = IO o (Ok se') →
  ResetPoints.of_compress se (b :: xs) g =
    (if Encoder.at_capacity se then [g] else []) ++
    ResetPoints.of_compress se' xs
      (g + (size (Encoder.dictionary se') - size (Encoder.current se))).
Proof. intros H. simpl. by rewrite H. Qed.

Lemma encoder_run_cons se b xs o se' :
  Encoder.step se (char_of_byte b) = IO o (Ok se') →
  Encoder.loop se (b :: xs) ≫= Encoder.flush =
    IO (o ++ written (Encoder.loop se' xs ≫= Encoder.flush))
       (outcome (Encoder.loop se' xs ≫= Encoder.flush)).
Proof.
  intros H. simpl. rewrite H. io_simpl.
  destruct (Encoder.loop se' xs) as [o1 [st1|f]]; io_simpl; [|done].
  by rewrite app_assoc.
Qed.

Lemma sim_run xs : ∀ se sd c0 w g,
  sim se sd c0 w →
  ∃ codes,
    Encoder.loop se xs ≫= Encoder.flush = IO codes (Ok tt) ∧
    Decoder.loop sd codes = IO ((byte_of_char <$> w) ++ xs) (Ok tt) ∧
    ResetPoints.of_decompress sd codes g =
      (if Decoder.at_capacity sd then [g] else []) ++
      ResetPoints.of_compress se xs (S g).
Proof.
  induction xs as [|b xs IH]; intros se sd c0 w g Hsim.
  - destruct Hsim as [Hhd Hcorr Hwf Hw Hprev Hfull].
    pose proof (decoder_step_next sd c0 _ w Hwf Hw Hhd Hprev) as Hdec.
    pose proof (decodes_lookup _ _ _ Hw) as Hi.
    pose proof (wf_size _ Hwf) as Hsz. rewrite dms_value in Hsz.
    assert (Encoder.i se < 65536) as Hi16 by lia.
    exists (code_bytes (Encoder.i se)). split; [|split].
    + simpl. io_simpl. unfold Encoder.flush.
      apply decodes_not_dms, N.eqb_neq in Hw. by rewrite Hw.
    + rewrite <-(app_nil_r (code_bytes _)), decoder_loop_code, Hdec by done.
      by io_simpl.
    + rewrite <-(app_nil_r (code_bytes _)), of_decompress_code, Hdec by done.
      done.
  - destruct (sim_step se sd c0 w b Hsim)
      as [(se' & Hstep & Hsim' & Hcap & Hsize)
         |(se' & sd' & Hstep & Hdec & Hsim' & Hi16 & Hsize & Hlen & Hcap)].
    + destruct (IH se' sd c0 _ g Hsim') as (codes & Henc & Hdecs & Hpts).
      exists codes. split; [|split].
      * rewrite (encoder_run_cons _ _ _ _ _ Hstep), Henc. done.
      * rewrite Hdecs, fmap_app, <-app_assoc. simpl.
        by rewrite byte_of_char_of_byte.
      * rewrite Hpts, (of_compress_cons _ _ _ _ _ _ Hstep), Hcap, Hsize.
        simpl. do 2 f_equal. lia.
    + destruct (IH se' sd' _ _ (S g) Hsim') as (codes & Henc & Hdecs & Hpts).
      exists (code_bytes (Encoder.i se) ++ codes). split; [|split].
      * rewrite (encoder_run_cons _ _ _ _ _ Hstep), Henc. done.
      * rewrite decoder_loop_code, Hdec by done. io_simpl. rewrite Hdecs.
        simpl. by rewrite byte_of_char_of_byte.
      * rewrite of_decompress_code, Hdec by done.
        rewrite (of_compress_cons _ _ _ _ _ _ Hstep), Hsize.
        cbn [outcome]. rewrite Hlen.
        replace (g + (S (length (Decoder.current sd)) - length (Decoder.current sd)))%nat
          with (S g) by lia.
        rewrite Hpts, Hcap. do 3 f_equal. lia.
Qed.
End runs.

(** ** From the initial states *)

Section from_init.
Context {P : Platform}.

Lemma encoder_init_room : Encoder.at_capacity Encoder.init = false.
Proof.
  unfold Encoder.at_capacity. simpl. by rewrite encoder_reset_size.
Qed.

Lemma decoder_init_room : Decoder.at_capacity Decoder.init = false.
Proof.
  unfold Decoder.at_capacity. simpl. by rewrite decoder_reset_length.
Qed.

Lemma encoder_reset_base_code (c : Z) :
  (minc ≤ c ≤ maxc)%Z →
  Encoder.reset_dictionary !! (globals.dms, c) = Some (base_code c).
Proof.
  intros Hc.
  rewrite (corr_lookup_inv _ _ _ _ corr_reset (decoder_reset_base_code c Hc)).
  by rewrite N2Nat.id.
Qed.

Lemma encoder_step_first (c : Z) :
  (minc ≤ c ≤ maxc)%Z →
  Encoder.step Encoder.init c =
    IO [] (Ok {| Encoder.dictionary := Encoder.reset_dictionary;
                 Encoder.i := base_code c |}).
Proof.
  intros Hc. rewrite (encoder_step_present _ _ (base_code c)).
  - by rewrite encoder_current_room by apply encoder_init_room.
  - rewrite encoder_current_room by apply encoder_init_room.
    by apply encoder_reset_base_code.
Qed.

Lemma decoder_step_first (c : Z) :
  (minc ≤ c ≤ maxc)%Z →
  Decoder.step Decoder.init (base_code c) =
    IO [byte_of_char c]
       (Ok {| Decoder.dictionary := Decoder.reset_dictionary;
              Decoder.i := base_code c |}).
Proof.
  intros Hc. pose proof (base_code_lt c Hc) as Hlt.
  unfold Decoder.step.
  rewrite decoder_current_room by apply decoder_init_room. simpl.
  rewrite decoder_reset_length.
  destruct (N.ltb_spec (N.of_nat 256) (base_code c)) as [|_]; [lia|].
  unfold Decoder.decode. rewrite decoder_reset_length.
  destruct (N.eqb_spec (base_code c) (N.of_nat 256)) as [|_]; [lia|].
  rewrite (rebuild_string_decodes _ _ [c])
    by (apply wf_decodes_base_code; [apply wf_reset|done]).
  done.
Qed.

(** After the second byte the two sides are in [sim]. *)
Lemma sim_second_byte (b b2 : byte) :
  let se1 := {| Encoder.dictionary := Encoder.reset_dictionary;
                Encoder.i := base_code (char_of_byte b) |} in
  let sd1 := {| Decoder.dictionary := Decoder.reset_dictionary;
                Decoder.i := base_code (char_of_byte b) |} in
  ∃ se2,
    Encoder.step se1 (char_of_byte b2) =
      IO (code_bytes (base_code (char_of_byte b))) (Ok se2) ∧
    sim se2 sd1 (char_of_byte b2) [char_of_byte b2] ∧
    size (Encoder.dictionary se2) = S (size Encoder.reset_dictionary).
Proof.
  intros se1 sd1.
  pose proof (char_of_byte_range b) as Hc.
  pose proof (char_of_byte_range b2) as Hc2.
  pose proof (base_code_lt _ Hc) as Hlt.
  assert (Encoder.at_capacity se1 = false) as Hroom by apply encoder_init_room.
  assert (Decoder.at_capacity sd1 = false) as Hroom' by apply decoder_init_room.
  destruct (encoder_step_insert se1 (char_of_byte b2) Decoder.reset_dictionary)
    as (m & Hstep & Hsize & Hcorr & Hwf); try done.
  { rewrite encoder_current_room by done. apply corr_reset. }
  { apply wf_reset. }
  { rewrite decoder_reset_length, dms_value. lia. }
  { rewrite encoder_current_room by done. simpl.
    destruct (Encoder.reset_dictionary !! _) eqn:E; [|done].
    apply reset_lookup_prefix in E. rewrite dms_value in E. lia. }
  { rewrite decoder_reset_length. simpl. lia. }
  eexists. split; [exact Hstep|]. split.
  - split; simpl; rewrite ?decoder_current_room by done; simpl; try done.
    + by apply wf_decodes_base_code.
    + rewrite decoder_reset_length. lia.
    + intros _. by apply base_code_lt.
  - by rewrite encoder_current_room in Hsize by done.
Qed.

(** The round trip, with the reset points of both sides. *)
Lemma compress_decompress (x : list byte) :
  ∃ codes,
    Encoder.compress x = IO codes (Ok tt) ∧
    Decoder.decompress codes = IO x (Ok tt) ∧
    ResetPoints.decompress codes = ResetPoints.compress x.
Proof.
  unfold Encoder.compress, Decoder.decompress,
    ResetPoints.decompress, ResetPoints.compress.
  destruct x as [|b [|b2 xs]].
  - by exists [].
  - pose proof (char_of_byte_range b) as Hc.
    pose proof (base_code_lt _ Hc) as Hlt.
    exists (code_bytes (base_code (char_of_byte b))). split; [|split].
    + rewrite (encoder_run_cons _ _ _ _ _ (encoder_step_first _ Hc)).
      simpl. io_simpl. unfold Encoder.flush. simpl.
      destruct (N.eqb_spec (base_code (char_of_byte b)) globals.dms) as [E|_]; [|done].
      rewrite dms_value in E. lia.
    + rewrite <-(app_nil_r (code_bytes _)), decoder_loop_code by lia.
      rewrite decoder_step_first by done. io_simpl.
      by rewrite byte_of_char_of_byte.
    + rewrite <-(app_nil_r (code_bytes _)), of_decompress_code by lia.
      rewrite decoder_step_first by done.
      rewrite (of_compress_cons _ _ _ _ _ _ (encoder_step_first _ Hc)).
      by rewrite decoder_init_room, encoder_init_room.
  - pose proof (char_of_byte_range b) as Hc.
    pose proof (base_code_lt _ Hc) as Hlt.
    destruct (sim_second_byte b b2) as (se2 & Hstep & Hsim & Hsize).
    set (se1 := {| Encoder.dictionary := Encoder.reset_dictionary;
                   Encoder.i := base_code (char_of_byte b) |}) in *.
    set (sd1 := {| Decoder.dictionary := Decoder.reset_dictionary;
                   Decoder.i := base_code (char_of_byte b) |}) in *.
    destruct (sim_run xs se2 sd1 _ _ 0%nat Hsim) as (codes & Henc & Hdec & Hpts).
    exists (code_bytes (base_code (char_of_byte b)) ++ codes). split; [|split].
    + rewrite (encoder_run_cons _ _ _ _ _ (encoder_step_first _ Hc)).
      fold se1. rewrite (encoder_run_cons _ _ _ _ _ Hstep).
      by rewrite Henc.
    + rewrite decoder_loop_code by lia.
      rewrite decoder_step_first by done. fold sd1. io_simpl.
      rewrite Hdec. simpl. by rewrite !byte_of_char_of_byte.
    + rewrite of_decompress_code by lia.
      rewrite decoder_step_first by done. fold sd1.
      rewrite (of_compress_cons _ _ _ _ _ _ (encoder_step_first _ Hc)).
      fold se1. rewrite (of_compress_cons _ _ _ _ _ _ Hstep).
      rewrite decoder_init_room, encoder_init_room.
      rewrite (encoder_init_room : Encoder.at_capacity se1 = false).
      rewrite (decoder_current_room Decoder.init), (encoder_current_room Encoder.init),
        (encoder_current_room se1)
        by (apply encoder_init_room || apply decoder_init_room).
      cbn [outcome app].
      replace (0 + (length (Decoder.dictionary sd1)
                    - length (Decoder.dictionary Decoder.init)))%nat
        with 0%nat by (simpl; lia).
      rewrite Hsize, Hpts, (decoder_init_room : Decoder.at_capacity sd1 = false).
      cbn [app]. f_equal. simpl. lia.
Qed.
End from_init.

(** ** Reaching a reset *)

Lemma distinct_NoDup (l : list N) : ∀ seen,
  distinct seen l = true → NoDup l ∧ ∀ x, x ∈ l → seen !! x = None.
Proof.
  induction l as [|x l IH]; intros seen; simpl.
  - intros _. split; [constructor|]. by intros x ?%elem_of_nil.
  - destruct (seen !! x) eqn:E; [done|]. intros [Hnd Hl]%IH. split.
    + constructor; [|done]. intros Hx. specialize (Hl x Hx).
      by rewrite lookup_insert_eq in Hl.
    + intros y [->|Hy]%elem_of_cons; [done|].
      specialize (Hl y Hy). destruct (decide (x = y)) as [->|Hne].
      * by rewrite lookup_insert_eq in Hl.
      * by rewrite lookup_insert_ne in Hl.
Qed.

Section reaching_reset.
Context {P : Platform}.

Lemma pairs_prefix (b : byte) (xs : list byte) e :
  e ∈ pairs b xs → e.1 < 256.
Proof.
  revert b. induction xs as [|c xs IH]; intros b; simpl.
  - by intros ?%elem_of_nil.
  - intros [->|He]%elem_of_cons; [|by eapply IH].
    apply base_code_lt, char_of_byte_range.
Qed.

(** As long as each byte makes a pair not seen before with the byte
    before it, every byte adds an entry; when the dictionary is full the
    next byte resets it. *)
Lemma pairs_fill (xs : list byte) : ∀ b se done g tail,
  corr (Encoder.dictionary se) (Decoder.reset_dictionary ++ done) →
  wf (Decoder.reset_dictionary ++ done) →
  Encoder.i se = base_code (char_of_byte b) →
  NoDup (done ++ pairs b xs) →
  N.of_nat (256 + length done + length xs) = globals.dms →
  tail ≠ [] →
  ResetPoints.of_compress se (xs ++ tail) g ≠ [].
Proof.
  induction xs as [|c xs IH]; intros b se done g tail Hcorr Hwf Hi Hnd Hlen Htail.
  - destruct tail as [|t tail]; [done|]. simpl.
    assert (Encoder.at_capacity se = true) as ->; [|done].
    unfold Encoder.at_capacity. apply N.eqb_eq.
    rewrite (corr_size _ _ Hcorr), length_app, decoder_reset_length.
    simpl in Hlen. rewrite <-Hlen. f_equal. lia.
  - simpl in Hlen.
    assert (N.of_nat (length (Decoder.reset_dictionary ++ done)) < globals.dms) as Hroom.
    { rewrite length_app, decoder_reset_length. lia. }
    assert (Encoder.at_capacity se = false) as Hcap.
    { unfold Encoder.at_capacity. apply N.eqb_neq.
      rewrite (corr_size _ _ Hcorr). lia. }
    pose proof (char_of_byte_range b) as Hb.
    pose proof (base_code_lt _ Hb) as Hblt.
    destruct (encoder_step_insert se (char_of_byte c) (Decoder.reset_dictionary ++ done))
      as (m & Hstep & Hsize & Hcorr' & Hwf'); try done.
    + by rewrite encoder_current_room.
    + rewrite encoder_current_room by done.
      destruct (Encoder.dictionary se !! _) as [j|] eqn:E; [|done]. exfalso.
      apply (corr_lookup _ _ _ _ Hcorr) in E.
      apply list_elem_of_lookup_2 in E. rewrite Hi in E.
      apply elem_of_app in E as [E|E].
      * apply list_elem_of_lookup_1 in E as [n E].
        apply decoder_reset_lookup_inv in E as (_ & E & _).
        rewrite dms_value in E. lia.
      * simpl in Hnd. apply NoDup_app in Hnd as (_ & Hnd & _).
        apply (Hnd _ E). by left.
    + rewrite Hi, length_app, decoder_reset_length. lia.
    + apply char_of_byte_range.
    + change ((c :: xs) ++ tail) with (c :: (xs ++ tail)).
      rewrite (of_compress_cons _ _ _ _ _ _ Hstep), Hcap. cbn [app].
      rewrite Hi, <-app_assoc in Hcorr', Hwf'.
      apply (IH c _ (done ++ [(base_code (char_of_byte b), char_of_byte c)]));
        simpl; try done.
      * by rewrite <-app_assoc.
      * rewrite length_app. simpl. rewrite <-Hlen. f_equal. lia.
Qed.

Lemma compress_reaches_reset (b : byte) (xs tail : list byte) :
  NoDup (pairs b xs) → N.of_nat (length xs) = 65279 → tail ≠ [] →
  ResetPoints.compress (b :: xs ++ tail) ≠ [].
Proof.
  intros Hnd Hlen Htail. unfold ResetPoints.compress.
  pose proof (char_of_byte_range b) as Hb.
  rewrite (of_compress_cons _ _ _ _ _ _ (encoder_step_first _ Hb)), encoder_init_room.
  cbn [app]. apply (pairs_fill xs b _ []); simpl; try done.
  - rewrite app_nil_r. apply corr_reset.
  - rewrite app_nil_r. apply wf_reset.
  - rewrite dms_value. lia.
Qed.
End reaching_reset.

Lemma list_split_head {A} (l : list A) (b : A) (n : nat) :
  head l = Some b → l = b :: take n (drop 1 l) ++ drop n (drop 1 l).
Proof. destruct l; intros [= ->]. simpl. by rewrite drop_0, take_drop. Qed.

(** With signed [char], [diverse_input] drives [compress] to a reset. *)
Lemma diverse_input_resets : @ResetPoints.compress x86_64 diverse_input ≠ [].
Proof.
  rewrite (list_split_head diverse_input Byte.x00 (N.to_nat 65279))
    by (vm_compute; reflexivity).
  apply compress_reaches_reset.
  - apply (NoDup_fmap_1 pair_code).
    apply (distinct_NoDup _ ∅). vm_compute. reflexivity.
  - vm_compute. reflexivity.
  - vm_compute. discriminate.
Qed.

(** ** Failures of the decoder *)

Section decoder_failures.
Context {P : Platform}.
Implicit Types (d : list (N * Z)) (k p : N) (s : list Z).

Lemma rebuild_loop_raises fuel : ∀ d k s f,
  Decoder.rebuild_loop fuel d k s = Raise f → f = OutOfRange ∨ f = Unbounded.
Proof.
  induction fuel as [|fuel IH]; intros d k s f; simpl; [intuition congruence|].
  destruct (k =? globals.dms); [done|].
  unfold Decoder.vector_at. destruct (d !! N.to_nat k); simpl; [apply IH|intuition congruence].
Qed.

Lemma rebuild_string_raises d k f :
  Decoder.rebuild_string d k = Raise f → f = OutOfRange ∨ f = Unbounded.
Proof.
  unfold Decoder.rebuild_string.
  destruct (Decoder.rebuild_loop _ d k []) eqn:E; simpl; [done|].
  intros [= <-]. by eapply rebuild_loop_raises.
Qed.

Lemma front_raises s f : Decoder.front s = Raise f → f = EmptyFront.
Proof. destruct s; simpl; [by intros [= <-]|done]. Qed.

Lemma decode_raises d i k f :
  Decoder.decode d i k = Raise f →
  f = OutOfRange ∨ f = Unbounded ∨ f = EmptyFront.
Proof.
  unfold Decoder.decode. destruct (k =? N.of_nat (length d)).
  - destruct (Decoder.rebuild_string d i) as [si|f1] eqn:E1; simpl;
      [|intros [= <-]; apply rebuild_string_raises in E1; intuition congruence].
    destruct (Decoder.front si) as [c|f2] eqn:E2; simpl;
      [|intros [= <-]; apply front_raises in E2; intuition congruence].
    destruct (Decoder.rebuild_string _ k) as [s|f3] eqn:E3; simpl; [done|].
    intros [= <-]. apply rebuild_string_raises in E3. intuition congruence.
  - destruct (Decoder.rebuild_string d k) as [s|f1] eqn:E1; simpl;
      [|intros [= <-]; apply rebuild_string_raises in E1; intuition congruence].
    destruct (i =? globals.dms); [done|].
    destruct (Decoder.front s) as [c|f2] eqn:E2; simpl; [done|].
    intros [= <-]. apply front_raises in E2. intuition congruence.
Qed.

(** After the test on [k], a turn of the loop ends like [decode] and
    the [front()] of the write. *)
Lemma decoder_step_valid sd k :
  ¬ N.of_nat (length (Decoder.current sd)) < k →
  Decoder.step sd k =
    match Decoder.decode (Decoder.current sd) (Decoder.i sd) k with
    | Ok (d, s) =>
        match Decoder.front s with
        | Ok _ => IO (byte_of_char <$> s)
                     (Ok {| Decoder.dictionary := d; Decoder.i := k |})
        | Raise f => IO [] (Raise f)
        end
    | Raise f => IO [] (Raise f)
    end.
Proof.
  intros Hk. unfold Decoder.step.
  destruct (N.ltb_spec (N.of_nat (length (Decoder.current sd))) k) as [|_]; [done|].
  destruct (Decoder.decode _ _ k) as [[d s]|f]; io_simpl; [|done].
  destruct (Decoder.front s); io_simpl; [|done]. by rewrite app_nil_r.
Qed.

Lemma decoder_step_invalid sd k :
  N.of_nat (length (Decoder.current sd)) < k →
  Decoder.step sd k = IO [] (Raise InvalidCode).
Proof.
  intros Hk. unfold Decoder.step.
  by destruct (N.ltb_spec (N.of_nat (length (Decoder.current sd))) k) as [_|]; [|lia].
Qed.

Lemma decoder_step_raises sd k f :
  outcome (Decoder.step sd k) = Raise f →
  (f = InvalidCode ∧ N.of_nat (length (Decoder.current sd)) < k) ∨
  ((f = OutOfRange ∨ f = Unbounded ∨ f = EmptyFront) ∧
   ¬ N.of_nat (length (Decoder.current sd)) < k).
Proof.
  destruct (decide (N.of_nat (length (Decoder.current sd)) < k)) as [Hk|Hk].
  - rewrite decoder_step_invalid by done. simpl. intros [= <-]. by left.
  - rewrite decoder_step_valid by done. intros H. right. split; [|done].
    destruct (Decoder.decode _ _ k) as [[d s]|f1] eqn:E1.
    + destruct (Decoder.front s) as [c|f2] eqn:E2; simpl in H; [done|].
      simplify_eq. apply front_raises in E2. intuition congruence.
    + simpl in H. simplify_eq. by apply decode_raises in E1.
Qed.

Lemma decoder_step_written sd k sd' :
  outcome (Decoder.step sd k) = Ok sd' → written (Decoder.step sd k) ≠ [].
Proof.
  destruct (decide (N.of_nat (length (Decoder.current sd)) < k)) as [Hk|Hk].
  - by rewrite decoder_step_invalid.
  - rewrite decoder_step_valid by done.
    destruct (Decoder.decode _ _ k) as [[d s]|f1]; [|done].
    destruct s; done.
Qed.

Lemma list_pair_ind {A} (Q : list A → Prop) :
  Q [] → (∀ a, Q [a]) → (∀ a b l, Q l → Q (a :: b :: l)) → ∀ l, Q l.
Proof.
  intros H0 H1 H2. fix IH 1. intros [|a [|b l]]; [done..|].
  apply H2, IH.
Qed.

Lemma decoder_loop_cons sd b0 b1 rest :
  Decoder.loop sd (b0 :: b1 :: rest) =
    Decoder.step sd (bytes_code b0 b1) ≫= λ sd', Decoder.loop sd' rest.
Proof. done. Qed.

Lemma decoder_loop_trailing (pre : list byte) : ∀ sd b,
  Nat.even (length pre) = true →
  outcome (Decoder.loop sd pre) ≠ Raise CorruptStream ∧
  Decoder.loop sd (pre ++ [b]) =
    match outcome (Decoder.loop sd pre) with
    | Ok _ => IO (written (Decoder.loop sd pre)) (Raise CorruptStream)
    | Raise _ => Decoder.loop sd pre
    end.
Proof.
  induction pre as [|a|b0 b1 pre IH] using list_pair_ind; intros sd b Hev.
  - done.
  - done.
  - simpl in Hev. change ((b0 :: b1 :: pre) ++ [b]) with (b0 :: b1 :: (pre ++ [b])).
    rewrite !decoder_loop_cons.
    destruct (Decoder.step sd (bytes_code b0 b1)) as [o [sd'|f]] eqn:E; io_simpl.
    + destruct (IH sd' b Hev) as [Hne ->]. split; [done|].
      destruct (Decoder.loop sd' pre) as [o' [[]|f']]; io_simpl; done.
    + split; [|done]. intros [= ->].
      pose proof (decoder_step_raises sd (bytes_code b0 b1) CorruptStream) as H.
      rewrite E in H. intuition congruence.
Qed.
End decoder_failures.

(** ** The decoder on any stream *)

Section decoder_any.
Context {P : Platform}.
Implicit Types (d : list (N * Z)) (k p : N) (s : list Z).

Lemma decoder_current_bound sd :
  N.of_nat (length (Decoder.dictionary sd)) ≤ globals.dms →
  N.of_nat (length (Decoder.current sd)) < globals.dms.
Proof.
  intros H. unfold Decoder.current, Decoder.at_capacity.
  destruct (N.eqb_spec (N.of_nat (length (Decoder.dictionary sd))) globals.dms).
  - rewrite decoder_reset_length, dms_value. lia.
  - lia.
Qed.

Lemma decode_lengths d i k d' s :
  Decoder.decode d i k = Ok (d', s) →
  (length d ≤ length d' ≤ length d + 1)%nat ∧
  Decoder.rebuild_string d' k = Ok s.
Proof.
  unfold Decoder.decode. destruct (k =? N.of_nat (length d)).
  - destruct (Decoder.rebuild_string d i) as [si|]; simpl; [|done].
    destruct (Decoder.front si) as [c|]; simpl; [|done].
    destruct (Decoder.rebuild_string _ k) as [s'|] eqn:E; simpl; [|done].
    intros [= <- <-]. rewrite length_app. simpl. split; [lia|done].
  - destruct (Decoder.rebuild_string d k) as [s'|] eqn:E; simpl; [|done].
    destruct (i =? globals.dms).
    + intros [= <- <-]. split; [lia|done].
    + destruct (Decoder.front s') as [c|]; simpl; [|done].
      intros [= <- <-]. split; [rewrite length_app; simpl; lia|].
      revert E. unfold Decoder.rebuild_string.
      destruct (Decoder.rebuild_loop _ d k []) as [r|] eqn:Er;
        cbn [mbind result_bind mret result_ret]; [|done].
      intros [= <-]. rewrite length_app. cbn [length].
      by rewrite (rebuild_loop_grow _ _ _ _ _ _ _ Er) by lia.
Qed.

Lemma decoder_step_started sd k :
  decoder_started sd →
  outcome (Decoder.step sd k) ≠ Raise EmptyFront ∧
  ∀ sd', outcome (Decoder.step sd k) = Ok sd' → decoder_started sd'.
Proof.
  intros [Hlen Hi]. pose proof (decoder_current_bound sd Hlen) as Hcur.
  destruct (decide (N.of_nat (length (Decoder.current sd)) < k)) as [Hk|Hk].
  { by rewrite decoder_step_invalid. }
  rewrite decoder_step_valid by done.
  assert (k ≠ globals.dms) as Hkd by lia.
  destruct (Decoder.decode _ _ k) as [[d s]|f] eqn:E.
  - apply decode_lengths in E as [Hd Hs].
    apply rebuild_string_nonempty in Hs; [|done].
    destruct s as [|c s]; [done|]. simpl. split; [done|].
    intros sd' [= <-]. split; simpl; [lia|done].
  - simpl. split; [|done]. intros [= ->].
    revert E. unfold Decoder.decode. destruct (k =? N.of_nat (length _)).
    + destruct (Decoder.rebuild_string _ (Decoder.i sd)) as [si|f1] eqn:E1; simpl.
      * apply rebuild_string_nonempty in E1; [|done].
        destruct si as [|c si]; [done|]. simpl.
        destruct (Decoder.rebuild_string _ k) as [s'|f3] eqn:E3; simpl; [done|].
        intros [= ->]. apply rebuild_string_raises in E3. intuition congruence.
      * intros [= ->]. apply rebuild_string_raises in E1. intuition congruence.
    + destruct (Decoder.rebuild_string _ k) as [s'|f1] eqn:E1; simpl.
      * apply N.eqb_neq in Hi. rewrite Hi.
        apply rebuild_string_nonempty in E1; [|done].
        by destruct s'.
      * intros [= ->]. apply rebuild_string_raises in E1. intuition congruence.
Qed.

(** Before the first code there is nothing to push: only the
    self-reference branch can meet an empty string. *)
Lemma decoder_step_unstarted sd k :
  N.of_nat (length (Decoder.dictionary sd)) ≤ globals.dms →
  Decoder.i sd = globals.dms →
  outcome (Decoder.step sd k) = Raise EmptyFront →
  k = N.of_nat (length (Decoder.current sd)).
Proof.
  intros Hlen Hi. pose proof (decoder_current_bound sd Hlen) as Hcur.
  destruct (decide (N.of_nat (length (Decoder.current sd)) < k)) as [Hk|Hk].
  { by rewrite decoder_step_invalid. }
  rewrite decoder_step_valid by done. unfold Decoder.decode.
  destruct (N.eqb_spec k (N.of_nat (length (Decoder.current sd)))) as [|Hne]; [done|].
  assert (k ≠ globals.dms) as Hkd by lia.
  destruct (Decoder.rebuild_string _ k) as [s|f] eqn:E;
    cbn [mbind result_bind].
  - rewrite Hi, N.eqb_refl. cbn [mret result_ret].
    apply rebuild_string_nonempty in E; [|done]. by destruct s.
  - simpl. intros [= ->]. apply rebuild_string_raises in E. intuition congruence.
Qed.

Lemma decoder_loop_started (input : list byte) : ∀ sd,
  decoder_started sd → outcome (Decoder.loop sd input) ≠ Raise EmptyFront.
Proof.
  induction input as [|a|b0 b1 input IH] using list_pair_ind; intros sd Hsd;
    [done..|].
  rewrite decoder_loop_cons.
  destruct (decoder_step_started sd (bytes_code b0 b1) Hsd) as [Hne Hnext].
  destruct (Decoder.step sd (bytes_code b0 b1)) as [o [sd'|f]]; io_simpl.
  - apply IH, Hnext. done.
  - simpl in Hne. congruence.
Qed.

(** The self-reference branch on the sentinel: the code passes the
    test, and [front()] is taken of an empty string. *)
Lemma decoder_step_sentinel d :
  let sd := {| Decoder.dictionary := d; Decoder.i := globals.dms |} in
  Decoder.step sd (N.of_nat (length (Decoder.current sd))) = IO [] (Raise EmptyFront).
Proof.
  intros sd. rewrite decoder_step_valid by lia.
  unfold Decoder.decode. by rewrite N.eqb_refl.
Qed.

Lemma decoder_first_code (k : N) (rest : list byte) (b0 b1 : byte) :
  bytes_code b0 b1 = k →
  outcome (Decoder.decompress (b0 :: b1 :: rest)) = Raise EmptyFront ↔ k = 256.
Proof.
  intros Hb. unfold Decoder.decompress. rewrite decoder_loop_cons, Hb.
  pose proof decoder_init_room as Hroom.
  pose proof (decoder_current_room _ Hroom) as Hcur. simpl in Hcur.
  split.
  - intros H. destruct (decide (k = 256)) as [|Hne]; [done|]. exfalso.
    destruct (decide (N.of_nat (length (Decoder.current Decoder.init)) < k)) as [Hk|Hk].
    { rewrite decoder_step_invalid in H by done. done. }
    rewrite decoder_step_valid in H by done.
    rewrite Hcur, decoder_reset_length in Hk.
    assert (k < 256) as Hlt by lia.
    pose proof (wf_decodes_base _ k wf_reset Hlt) as Hdec.
    revert H. unfold Decoder.decode. rewrite Hcur, decoder_reset_length.
    destruct (N.eqb_spec k (N.of_nat 256)) as [|_]; [lia|].
    rewrite (rebuild_string_decodes _ _ _ Hdec). simpl. io_simpl.
    apply decoder_loop_started. split; simpl.
    + rewrite decoder_reset_length, dms_value. lia.
    + rewrite dms_value. lia.
  - intros ->.
    pose proof (decoder_step_sentinel Decoder.reset_dictionary) as H.
    simpl in H. fold Decoder.init in H.
    rewrite Hcur, decoder_reset_length in H.
    change (N.of_nat 256) with 256 in H. by rewrite H.
Qed.
End decoder_any.

(** ** The encoder on any input *)

Section encoder_any.
Context {P : Platform}.

Lemma sim_loop (xs : list byte) : ∀ se sd c0 w,
  sim se sd c0 w →
  ∃ out se' sd' c0' w',
    Encoder.loop se xs = IO out (Ok se') ∧ sim se' sd' c0' w'.
Proof.
  induction xs as [|b xs IH]; intros se sd c0 w Hsim.
  - by exists [], se, sd, c0, w.
  - destruct (sim_step se sd c0 w b Hsim)
      as [(se1 & Hstep & Hsim1 & _)|(se1 & sd1 & Hstep & _ & Hsim1 & _)];
      destruct (IH _ _ _ _ Hsim1) as (out & se' & sd' & c0' & w' & Hloop & Hsim');
      eexists _, se', sd', c0', w'; (split; [|done]);
      simpl; rewrite Hstep; io_simpl; by rewrite Hloop.
Qed.

Lemma sim_pending se sd c0 w : sim se sd c0 w → Encoder.i se ≠ globals.dms.
Proof. intros Hsim. eapply decodes_not_dms, sim_w, Hsim. Qed.

Lemma encoder_loop_total (x : list byte) :
  ∃ out st,
    Encoder.loop Encoder.init x = IO out (Ok st) ∧
    (Encoder.i st = globals.dms ↔ x = []).
Proof.
  destruct x as [|b [|b2 xs]].
  - by exists [], Encoder.init.
  - pose proof (char_of_byte_range b) as Hc.
    pose proof (base_code_lt _ Hc) as Hlt.
    eexists [], _. simpl. rewrite (encoder_step_first _ Hc). io_simpl.
    split; [done|]. simpl. rewrite dms_value. split; [lia|done].
  - pose proof (char_of_byte_range b) as Hc.
    destruct (sim_second_byte b b2) as (se2 & Hstep & Hsim & _).
    destruct (sim_loop xs _ _ _ _ Hsim) as (out & se' & sd' & c0' & w' & Hloop & Hsim').
    eexists _, se'. split.
    + cbn [Encoder.loop]. rewrite (encoder_step_first _ Hc). io_simpl.
      rewrite Hstep. io_simpl. by rewrite Hloop.
    + split; [|done]. intros E. by apply sim_pending in Hsim'.
Qed.
End encoder_any.

(** ** A dictionary filled by one code *)

Section zeros.
Context {P : Platform}.

Lemma decoder_current_not_dms (sd : Decoder.state) :
  N.of_nat (length (Decoder.current sd)) ≠ globals.dms.
Proof.
  unfold Decoder.current, Decoder.at_capacity.
  destruct (N.eqb_spec (N.of_nat (length (Decoder.dictionary sd))) globals.dms); [|done].
  rewrite decoder_reset_length, dms_value. lia.
Qed.

Lemma base_code_minc : base_code minc = 0.
Proof. unfold base_code. by rewrite Z.sub_diag. Qed.

Lemma minc_range : (minc ≤ minc ≤ maxc)%Z.
Proof. unfold minc, maxc. destruct char_is_signed; lia. Qed.

Lemma wf_zeros (m : nat) :
  N.of_nat (256 + m) ≤ globals.dms →
  wf (Decoder.reset_dictionary ++ replicate m (0, minc)).
Proof.
  intros Hm. split.
  - by eexists.
  - rewrite length_app, decoder_reset_length, length_replicate. lia.
  - intros n p c Hn Hge.
    rewrite lookup_app_r in Hn by (rewrite decoder_reset_length; lia).
    apply lookup_replicate in Hn as [[= -> ->] _]. lia.
Qed.

Lemma decodes_zero (d : list (N * Z)) : wf d → decodes d 0 [minc].
Proof.
  intros Hwf. pose proof (wf_decodes_base d 0 Hwf) as H.
  rewrite Z.add_0_r in H. apply H. lia.
Qed.

Lemma zeros_step (m : nat) :
  N.of_nat (256 + m) < globals.dms →
  Decoder.step {| Decoder.dictionary := Decoder.reset_dictionary ++ replicate m (0, minc);
                  Decoder.i := 0 |} 0 =
    IO [byte_of_char minc]
       (Ok {| Decoder.dictionary := Decoder.reset_dictionary ++ replicate (S m) (0, minc);
              Decoder.i := 0 |}).
Proof.
  intros Hm.
  set (sd := {| Decoder.dictionary := _; Decoder.i := 0 |}).
  assert (Decoder.current sd = Decoder.reset_dictionary ++ replicate m (0, minc)) as Hcur.
  { apply decoder_current_room. unfold Decoder.at_capacity. simpl.
    apply N.eqb_neq. rewrite length_app, decoder_reset_length, length_replicate. lia. }
  assert (wf (Decoder.current sd ++ [(Decoder.i sd, minc)])) as Hwf.
  { rewrite Hcur. simpl. rewrite <-app_assoc, <-replicate_S_end. apply wf_zeros. lia. }
  rewrite (decoder_step_next sd minc 0 [minc]); try done.
  - rewrite Hcur. simpl. by rewrite <-app_assoc, <-replicate_S_end.
  - by apply decodes_zero.
  - rewrite Hcur, length_app, decoder_reset_length. simpl. lia.
Qed.

Lemma zeros_reachable (m : nat) :
  N.of_nat (256 + m) ≤ globals.dms →
  decoder_reachable
    {| Decoder.dictionary := Decoder.reset_dictionary ++ replicate m (0, minc);
       Decoder.i := 0 |}.
Proof.
  induction m as [|m IH]; intros Hm.
  - simpl. rewrite app_nil_r.
    apply (decoder_reachable_step Decoder.init 0); [constructor|].
    rewrite <-base_code_minc at 1. rewrite (decoder_step_first minc minc_range).
    by rewrite base_code_minc.
  - eapply decoder_reachable_step; [apply IH; lia|].
    by rewrite zeros_step by lia.
Qed.

(** The code [j] read when the dictionary lacks one entry: it fills the
    dictionary and becomes the previous code. *)
Lemma zeros_fill_step (n : nat) (j : N) :
  N.of_nat n = 65278 → 256 ≤ j ≤ 65533 →
  Decoder.step {| Decoder.dictionary := Decoder.reset_dictionary ++ replicate n (0, minc);
                  Decoder.i := 0 |} j =
    IO (byte_of_char <$> [minc; minc])
       (Ok {| Decoder.dictionary :=
                Decoder.reset_dictionary ++ replicate (S n) (0, minc);
              Decoder.i := j |}).
Proof.
  intros Hn Hj.
  set (sd := {| Decoder.dictionary := _; Decoder.i := 0 |}).
  set (e0 := (0, minc)) in *.
  assert (Decoder.current sd = Decoder.reset_dictionary ++ replicate n e0) as Hcur.
  { apply decoder_current_room. unfold Decoder.at_capacity. simpl.
    apply N.eqb_neq. rewrite length_app, decoder_reset_length, length_replicate.
    rewrite dms_value. lia. }
  assert (Decoder.current sd ++ [(Decoder.i sd, minc)] =
          Decoder.reset_dictionary ++ replicate (S n) e0) as Hnext.
  { rewrite Hcur. simpl. by rewrite <-app_assoc, <-replicate_S_end. }
  assert (wf (Decoder.current sd ++ [(Decoder.i sd, minc)])) as Hwf.
  { rewrite Hnext. apply wf_zeros. rewrite dms_value. lia. }
  rewrite (decoder_step_next sd minc j [minc; minc]); try done.
  - by rewrite Hnext.
  - change [minc; minc] with ([minc] ++ [minc]).
    apply (decodes_ext _ j 0 minc [minc]);
      [|lia|rewrite dms_value; lia|by apply decodes_zero].
    rewrite Hnext.
    rewrite lookup_app_r by (rewrite decoder_reset_length; lia).
    apply lookup_replicate_2. rewrite decoder_reset_length. lia.
  - rewrite Hcur, length_app, decoder_reset_length. simpl. lia.
Qed.

Lemma stale_state_reachable (j : N) :
  256 ≤ j ≤ 65533 → decoder_reachable (stale_state j).
Proof.
  intros Hj. unfold stale_state.
  set (n := N.to_nat 65278).
  assert (N.of_nat n = 65278) as Hn by (unfold n; lia).
  replace (N.to_nat 65279) with (S n) by (unfold n; lia). clearbody n.
  eapply decoder_reachable_step.
  - apply (zeros_reachable n). rewrite dms_value. lia.
  - by rewrite (zeros_fill_step n j Hn Hj).
Qed.

Lemma stale_state_current (j : N) :
  Decoder.current (stale_state j) = Decoder.reset_dictionary.
Proof.
  apply decoder_current_full. unfold Decoder.at_capacity, stale_state.
  cbn [Decoder.dictionary].
  apply N.eqb_eq. rewrite length_app, decoder_reset_length, length_replicate.
  rewrite dms_value. lia.
Qed.

(** After the reset the previous code [j] has no entry any more. *)
Lemma stale_state_rebuild (j : N) :
  256 ≤ j ≤ 65533 →
  Decoder.rebuild_string Decoder.reset_dictionary j = Raise OutOfRange.
Proof.
  intros Hj. unfold Decoder.rebuild_string. rewrite rebuild_loop_S.
  assert ((j =? globals.dms) = false) as ->
    by (apply N.eqb_neq; rewrite dms_value; lia).
  unfold Decoder.vector_at.
  by rewrite lookup_ge_None_2 by (rewrite decoder_reset_length; lia).
Qed.

Lemma stale_state_step (j : N) :
  256 ≤ j ≤ 65533 →
  Decoder.step (stale_state j) (N.of_nat (length (Decoder.current (stale_state j)))) =
    IO [] (Raise OutOfRange).
Proof.
  intros Hj. rewrite decoder_step_valid by lia.
  rewrite stale_state_current. unfold Decoder.decode. rewrite N.eqb_refl.
  cbn [stale_state Decoder.i]. by rewrite (stale_state_rebuild j Hj).
Qed.
End zeros.

(** * Runs on small inputs *)

(** "AAAA" on a host with unsigned [char]: the codes 65, 256, 65. *)
Example compress_AAAA :
  @Encoder.compress aarch64 [Byte.x41; Byte.x41; Byte.x41; Byte.x41] =
    IO [Byte.x41; Byte.x00; Byte.x00; Byte.x01; Byte.x41; Byte.x00] (Ok tt).
Proof. by vm_compute. Qed.

(** The codes 65, 256: the second is the size of the dictionary, the
    self-reference case, and stands for "AA". *)
Example decompress_65_256 :
  @Decoder.decompress aarch64 [Byte.x41; Byte.x00; Byte.x00; Byte.x01] =
    IO [Byte.x41; Byte.x41; Byte.x41] (Ok tt).
Proof. by vm_compute. Qed.

(** The same bytes read on a big-endian host are the codes 16640 and 1. *)
Example decompress_big_endian :
  @Decoder.decompress s390x [Byte.x41; Byte.x00; Byte.x00; Byte.x01] =
    IO [] (Raise InvalidCode).
Proof. by vm_compute. Qed.

(** With signed [char] the bytes 0x80..0xFF come first. *)
Example compress_signed :
  @Encoder.compress x86_64 [Byte.x80; Byte.xff; Byte.x00] =
    IO [Byte.x00; Byte.x00; Byte.x7f; Byte.x00; Byte.x80; Byte.x00] (Ok tt).
Proof. by vm_compute. Qed.

(** An entry that is its own prefix: the loop of [rebuild_string] never
    reaches [dms]. *)
Example rebuild_string_cycle :
  Decoder.rebuild_string [(0, 65%Z)] 0 = Raise Unbounded.
Proof. by vm_compute. Qed.

(** * The claims *)

(** C1. Round trip: for every finite byte sequence [x], the empty one
    included, [compress] ends without failure and [decompress], run on
    what it wrote, ends without failure having written exactly [x]. *)
Theorem round_trip {P : Platform} (x : list byte) :
  outcome (Encoder.compress x) = Ok tt ∧
  Decoder.decompress (written (Encoder.compress x)) = IO x (Ok tt).
Proof.
  destruct (compress_decompress x) as (codes & -> & Hdec & _). done.
Qed.

(** C2. Reset correctness: on every input, so on every input that fills
    the dictionary, [decompress] resets its dictionary at the same
    logical points as [compress], a point being the number of entries
    learned so far, which grows by one for each code written or read in
    steady state; and the round trip holds, resets included. *)
Theorem reset_correctness {P : Platform} (x : list byte) :
  ResetPoints.decompress (written (Encoder.compress x)) = ResetPoints.compress x ∧
  Decoder.decompress (written (Encoder.compress x)) = IO x (Ok tt).
Proof.
  destruct (compress_decompress x) as (codes & -> & Hdec & Hpts). done.
Qed.

(** On [diverse_input] the dictionary does fill and [compress] resets it. *)
Lemma reset_correctness_witness :
  @ResetPoints.compress x86_64 diverse_input ≠ [] ∧
  @ResetPoints.decompress x86_64 (written (@Encoder.compress x86_64 diverse_input))
    = @ResetPoints.compress x86_64 diverse_input ∧
  @Decoder.decompress x86_64 (written (@Encoder.compress x86_64 diverse_input))
    = IO diverse_input (Ok tt).
Proof.
  split; [exact diverse_input_resets|].
  exact (@reset_correctness x86_64 diverse_input).
Defined.

(** C3, as the code has it. At start and after every reset both
    dictionaries hold exactly 256 base entries, one per value of the
    platform's [char], with codes 0..255 in ascending order of the char
    value and prefix [dms]: the byte [b] gets the code [b] where [char]
    is unsigned and the code [(b + 128) mod 256] where it is signed. The
    mapping is the same in [compress] and [decompress]. *)
Theorem base_alphabet_seeding {P : Platform} :
  size Encoder.reset_dictionary = 256%nat ∧
  length Decoder.reset_dictionary = 256%nat ∧
  (∀ key j, Encoder.reset_dictionary !! key = Some j ↔
            Decoder.reset_dictionary !! N.to_nat j = Some key) ∧
  (∀ (n : nat) p c, Decoder.reset_dictionary !! n = Some (p, c) ↔
                    (n < 256)%nat ∧ p = globals.dms ∧ c = (minc + Z.of_nat n)%Z) ∧
  (∀ b : byte,
     Encoder.reset_dictionary !! (globals.dms, char_of_byte b) =
       Some (if char_is_signed then (Byte.to_N b + 128) mod 256 else Byte.to_N b)) ∧
  Encoder.dictionary Encoder.init = Encoder.reset_dictionary ∧
  Decoder.dictionary Decoder.init = Decoder.reset_dictionary ∧
  (∀ se, Encoder.current se =
         if Encoder.at_capacity se then Encoder.reset_dictionary
         else Encoder.dictionary se) ∧
  (∀ sd, Decoder.current sd =
         if Decoder.at_capacity sd then Decoder.reset_dictionary
         else Decoder.dictionary sd).
Proof.
  split; [apply encoder_reset_size|]. split; [apply decoder_reset_length|].
  split; [apply corr_reset|]. split; [|split; [|done]].
  - intros n p c. split; [apply decoder_reset_lookup_inv|].
    intros (Hn & -> & ->). by apply decoder_reset_lookup.
  - intros b. rewrite encoder_reset_base_code by apply char_of_byte_range.
    f_equal. unfold base_code, char_of_byte, minc.
    pose proof (to_N_lt b) as Hb.
    destruct char_is_signed; simpl; [|lia].
    destruct (Z.leb_spec 128 (Z.of_N (Byte.to_N b))).
    + apply (N.mod_unique _ _ 1); lia.
    + rewrite N.mod_small; lia.
Qed.

(** C3 as stated fails where [char] is signed: the byte 0x41 gets the
    code 193, and the code 65 belongs to the byte 0xC1. *)
Lemma base_alphabet_seeding_counterexample :
  Byte.to_N Byte.x41 = 65 ∧
  @Encoder.reset_dictionary x86_64 !! (globals.dms, @char_of_byte x86_64 Byte.x41)
    = Some 193 ∧
  @Decoder.reset_dictionary x86_64 !! 65%nat
    = Some (globals.dms, @char_of_byte x86_64 Byte.xc1) ∧
  ¬ (∀ (P : Platform) (b : byte),
       Encoder.reset_dictionary !! (globals.dms, char_of_byte b) = Some (Byte.to_N b)).
Proof.
  split; [done|]. split; [by vm_compute|]. split; [by vm_compute|].
  intros H. specialize (H x86_64 Byte.x41). vm_compute in H. discriminate.
Qed.

(** C4. For every code [k] the decoder reads, the turn of the loop fails
    with [InvalidCode] exactly when [k] is strictly greater than the size
    the dictionary has at that turn, after the reset at capacity if there
    is one: a code that is at most the size is never rejected by this
    test. [decompress] then ends at this code, with nothing more
    written. *)
Theorem invalid_code_rejection {P : Platform} (sd : Decoder.state) (k : CodeType) :
  (outcome (Decoder.step sd k) = Raise InvalidCode ↔
   N.of_nat (length (Decoder.current sd)) < k) ∧
  ∀ b0 b1 rest,
    Decoder.loop sd (b0 :: b1 :: rest) = IO [] (Raise InvalidCode) ↔
    N.of_nat (length (Decoder.current sd)) < bytes_code b0 b1.
Proof.
  split.
  - split.
    + intros H. apply decoder_step_raises in H. intuition congruence.
    + intros H. by rewrite decoder_step_invalid.
  - intros b0 b1 rest. rewrite decoder_loop_cons. split.
    + intros H.
      destruct (Decoder.step sd (bytes_code b0 b1)) as [o [sd'|f]] eqn:E;
        io_simpl; revert H; io_simpl.
      * intros [= Ho _]. apply app_eq_nil in Ho as [-> _].
        pose proof (decoder_step_written sd (bytes_code b0 b1) sd') as Hw.
        rewrite E in Hw. by specialize (Hw eq_refl).
      * intros [= -> ->].
        pose proof (decoder_step_raises sd (bytes_code b0 b1) InvalidCode) as Hr.
        rewrite E in Hr. intuition congruence.
    + intros H. by rewrite decoder_step_invalid.
Qed.

(** C5, as the code has it. A stream of complete codes followed by one
    more byte fails with [CorruptStream] when all its codes decode, after
    their output is written; when one of the codes fails, [decompress]
    ends there with that failure. A stream of complete codes only never
    fails with [CorruptStream]. *)
Theorem corrupt_stream_rejection {P : Platform} (pre : list byte) (b : byte) :
  Nat.even (length pre) = true →
  outcome (Decoder.decompress pre) ≠ Raise CorruptStream ∧
  Decoder.decompress (pre ++ [b]) =
    match outcome (Decoder.decompress pre) with
    | Ok _ => IO (written (Decoder.decompress pre)) (Raise CorruptStream)
    | Raise _ => Decoder.decompress pre
    end.
Proof. apply decoder_loop_trailing. Qed.

(** The code 65 and one more byte: "A" is written, then [CorruptStream]. *)
Lemma corrupt_stream_rejection_witness :
  Nat.even (length [Byte.x41; Byte.x00]) = true ∧
  outcome (@Decoder.decompress aarch64 [Byte.x41; Byte.x00]) ≠ Raise CorruptStream ∧
  @Decoder.decompress aarch64 ([Byte.x41; Byte.x00] ++ [Byte.x42]) =
    match outcome (@Decoder.decompress aarch64 [Byte.x41; Byte.x00]) with
    | Ok _ => IO (written (@Decoder.decompress aarch64 [Byte.x41; Byte.x00]))
                 (Raise CorruptStream)
    | Raise _ => @Decoder.decompress aarch64 [Byte.x41; Byte.x00]
    end.
Proof.
  split; [reflexivity|].
  apply (@corrupt_stream_rejection aarch64 [Byte.x41; Byte.x00] Byte.x42).
  reflexivity.
Defined.

(** C5 as stated fails: a stream of odd length whose first code is
    invalid ends with [InvalidCode], not with [CorruptStream]. *)
Lemma corrupt_stream_counterexample :
  length [Byte.xff; Byte.xff; Byte.x00] = 3%nat ∧
  @Decoder.decompress x86_64 [Byte.xff; Byte.xff; Byte.x00] = IO [] (Raise InvalidCode) ∧
  ¬ (∀ (P : Platform) (input : list byte),
       Nat.even (length input) = false →
       outcome (Decoder.decompress input) = Raise CorruptStream).
Proof.
  split; [done|]. split; [by vm_compute|].
  intros H. specialize (H x86_64 [Byte.xff; Byte.xff; Byte.x00] eq_refl).
  vm_compute in H. discriminate.
Qed.

(** C6. Empty input: [compress] writes nothing for the empty sequence,
    not even a flush, and [decompress] writes nothing for the empty
    stream and does not fail. *)
Theorem empty_input {P : Platform} :
  Encoder.compress [] = IO [] (Ok tt) ∧ Decoder.decompress [] = IO [] (Ok tt).
Proof. done. Qed.

(** C7. Single byte: for the input [0x41], [compress] writes exactly one
    code, the code the seeding of the dictionary gave to the byte 0x41
    (65 where [char] is unsigned, 193 where it is signed). *)
Theorem single_byte {P : Platform} :
  ∃ code : CodeType,
    Encoder.reset_dictionary !! (globals.dms, char_of_byte Byte.x41) = Some code ∧
    Encoder.compress [Byte.x41] = IO (code_bytes code) (Ok tt) ∧
    length (code_bytes code) = 2%nat ∧
    code = (if char_is_signed then 193 else 65).
Proof.
  pose proof (char_of_byte_range Byte.x41) as Hc.
  exists (base_code (char_of_byte Byte.x41)).
  split; [by apply encoder_reset_base_code|]. split; [|split].
  - unfold Encoder.compress.
    rewrite (encoder_run_cons _ _ _ _ _ (encoder_step_first _ Hc)).
    simpl. io_simpl. unfold Encoder.flush. simpl.
    pose proof (base_code_lt _ Hc) as Hlt.
    destruct (N.eqb_spec (base_code (char_of_byte Byte.x41)) globals.dms) as [E|_]; [|done].
    rewrite dms_value in E. lia.
  - unfold code_bytes. by destruct little_endian.
  - unfold base_code, char_of_byte, minc. by destruct char_is_signed.
Qed.

(** C8, as the code has it. When the decoder reads the code [k] equal
    to the current size of its dictionary, what it does depends on the
    string currently decoded for its previous code [i]. When there is
    one and it is not empty, it first appends the entry made of [i] and
    the first char of that string, and the string it then decodes and
    writes for [k] is that string followed by its own first char. The
    string is empty exactly when [i] is the sentinel: the turn then ends
    in [front()] of an empty vector. When [i] has no string, which is
    when [rebuild_string] fails for it, the turn fails the same way.
    In the last two cases nothing is appended and nothing is written. *)
Theorem self_reference {P : Platform} (sd : Decoder.state) :
  let d := Decoder.current sd in
  let k := N.of_nat (length d) in
  match Decoder.rebuild_string d (Decoder.i sd) with
  | Ok (c :: prev) =>
      Decoder.i sd ≠ globals.dms ∧
      Decoder.rebuild_string (d ++ [(Decoder.i sd, c)]) k = Ok ((c :: prev) ++ [c]) ∧
      Decoder.step sd k =
        IO (byte_of_char <$> (c :: prev) ++ [c])
           (Ok {| Decoder.dictionary := d ++ [(Decoder.i sd, c)]; Decoder.i := k |})
  | Ok [] =>
      Decoder.i sd = globals.dms ∧ Decoder.step sd k = IO [] (Raise EmptyFront)
  | Raise f =>
      Decoder.i sd ≠ globals.dms ∧ (f = OutOfRange ∨ f = Unbounded) ∧
      Decoder.step sd k = IO [] (Raise f)
  end.
Proof.
  intros d k. subst d k.
  pose proof (decoder_current_not_dms sd) as Hroom.
  rewrite decoder_step_valid by lia. unfold Decoder.decode. rewrite N.eqb_refl.
  destruct (Decoder.rebuild_string (Decoder.current sd) (Decoder.i sd))
    as [[|c prev]|f] eqn:Hprev.
  - split; [|done]. destruct (decide (Decoder.i sd = globals.dms)) as [|Hi]; [done|].
    by destruct (rebuild_string_nonempty _ _ _ Hprev Hi).
  - assert (Decoder.i sd ≠ globals.dms) as Hi.
    { intros E. rewrite E, rebuild_string_dms in Hprev. discriminate. }
    split; [done|].
    pose proof (rebuild_string_pushed _ _ c _ Hroom Hprev) as Hk.
    split; [done|]. cbn [mbind result_bind Decoder.front]. by rewrite Hk.
  - split; [|split; [by eapply rebuild_string_raises|done]].
    intros E. rewrite E, rebuild_string_dms in Hprev. discriminate.
Qed.

(** After the code 65 the code 256 is the size of the dictionary: the
    entry (65, 65) is appended and "AA" is written. *)
Lemma self_reference_witness :
  let sd := {| Decoder.dictionary := @Decoder.reset_dictionary aarch64;
               Decoder.i := 65 |} in
  @decoder_reachable aarch64 sd ∧
  Decoder.rebuild_string (@Decoder.current aarch64 sd) (Decoder.i sd) = Ok [65%Z] ∧
  @Decoder.step aarch64 sd (N.of_nat (length (@Decoder.current aarch64 sd))) =
    IO [Byte.x41; Byte.x41]
       (Ok {| Decoder.dictionary := @Decoder.current aarch64 sd ++ [(65, 65%Z)];
              Decoder.i := N.of_nat (length (@Decoder.current aarch64 sd)) |}).
Proof.
  intros sd.
  assert (Decoder.rebuild_string (@Decoder.current aarch64 sd) (Decoder.i sd)
          = Ok [65%Z]) as H1 by (vm_compute; reflexivity).
  split; [|split; [exact H1|]].
  - apply (@decoder_reachable_step aarch64 (@Decoder.init aarch64) 65); [constructor|].
    vm_compute. reflexivity.
  - pose proof (@self_reference aarch64 sd) as H. cbn zeta in H.
    rewrite H1 in H. exact (proj2 (proj2 H)).
Defined.

(** C8 as stated fails, on streams the decoder accepts up to that code.
    At the first code the previous code is the sentinel: the code 256
    ends in [front()] of an empty vector. And with a previous code that
    is not the sentinel: when the code 0 has been read 65279 times and
    then the code 256, the dictionary is full, the next turn resets it,
    and the code 256, now its size, meets a previous code that has no
    entry any more: [at()] throws and nothing is appended or written. *)
Lemma self_reference_counterexample :
  @Decoder.step x86_64 (@Decoder.init x86_64)
     (N.of_nat (length (@Decoder.current x86_64 (@Decoder.init x86_64)))) =
    IO [] (Raise EmptyFront) ∧
  (@decoder_reachable x86_64 (@stale_state x86_64 256) ∧
   Decoder.i (@stale_state x86_64 256) ≠ globals.dms ∧
   N.of_nat (length (@Decoder.current x86_64 (@stale_state x86_64 256))) = 256 ∧
   @Decoder.step x86_64 (@stale_state x86_64 256) 256 = IO [] (Raise OutOfRange)) ∧
  ¬ (∀ (P : Platform) (sd : Decoder.state),
       decoder_reachable sd → Decoder.i sd ≠ globals.dms →
       ∃ prev c,
         Decoder.rebuild_string (Decoder.current sd) (Decoder.i sd) = Ok prev ∧
         Decoder.front prev = Ok c ∧
         Decoder.step sd (N.of_nat (length (Decoder.current sd))) =
           IO (byte_of_char <$> prev ++ [c])
              (Ok {| Decoder.dictionary := Decoder.current sd ++ [(Decoder.i sd, c)];
                     Decoder.i := N.of_nat (length (Decoder.current sd)) |})).
Proof.
  assert (256 ≤ 256 ≤ 65533) as Hj by lia.
  assert (Decoder.i (@stale_state x86_64 256) ≠ globals.dms) as Hi.
  { cbn [stale_state Decoder.i]. rewrite dms_value. lia. }
  pose proof (@stale_state_reachable x86_64 256 Hj) as Hreach.
  pose proof (@stale_state_step x86_64 256 Hj) as Hstep.
  rewrite (@stale_state_current x86_64), (@decoder_reset_length x86_64) in Hstep.
  split; [by vm_compute|]. split.
  - split; [exact Hreach|]. split; [exact Hi|]. split; [|exact Hstep].
    by rewrite (@stale_state_current x86_64), (@decoder_reset_length x86_64).
  - intros H. destruct (H x86_64 _ Hreach Hi) as (prev & c & Hprev & _).
    rewrite (@stale_state_current x86_64) in Hprev.
    cbn [stale_state Decoder.i] in Hprev.
    by rewrite (@stale_state_rebuild x86_64 256 Hj) in Hprev.
Qed.

(** C9. Final flush: [compress] never fails inside its loop; at end of
    input it writes the pending code [i] as the last code exactly when
    [i] is not [dms]; and [i] is [dms] at end of input exactly for the
    empty input, so that every non-empty input gets one trailing code and
    the empty input none. *)
Theorem final_flush {P : Platform} (x : list byte) :
  ∃ out st,
    Encoder.loop Encoder.init x = IO out (Ok st) ∧
    Encoder.compress x =
      IO (out ++ if Encoder.i st =? globals.dms then [] else code_bytes (Encoder.i st))
         (Ok tt) ∧
    (Encoder.i st = globals.dms ↔ x = []) ∧
    length (code_bytes (Encoder.i st)) = 2%nat.
Proof.
  destruct (encoder_loop_total x) as (out & st & Hloop & Hi).
  exists out, st. split; [done|]. split; [|split; [done|]].
  - unfold Encoder.compress. rewrite Hloop. io_simpl. unfold Encoder.flush.
    destruct (Encoder.i st =? globals.dms); io_simpl; done.
  - unfold code_bytes. by destruct little_endian.
Qed.

(** C10. The test of the decoder rejects only codes strictly greater
    than the size of the dictionary. The string rebuilt for [dms] is
    empty; so a code equal to the size, read while the previous code is
    still [dms], passes the test and the self-reference branch takes
    [front()] of an empty string. This happens to [decompress] exactly on
    the streams whose first code is 256, and to one turn of the loop
    exactly when [k] is the size and [i] is [dms]. It never happens on a
    stream written by [compress]. *)
Theorem decoder_precondition {P : Platform} :
  (∀ d, Decoder.rebuild_string d globals.dms = Ok []) ∧
  (∀ d, let sd := {| Decoder.dictionary := d; Decoder.i := globals.dms |} in
        Decoder.step sd (N.of_nat (length (Decoder.current sd))) =
          IO [] (Raise EmptyFront)) ∧
  (∀ sd k, N.of_nat (length (Decoder.dictionary sd)) ≤ globals.dms →
           (outcome (Decoder.step sd k) = Raise EmptyFront ↔
            k = N.of_nat (length (Decoder.current sd)) ∧ Decoder.i sd = globals.dms)) ∧
  (∀ input, outcome (Decoder.decompress input) = Raise EmptyFront ↔
            ∃ b0 b1 rest, input = b0 :: b1 :: rest ∧ bytes_code b0 b1 = 256) ∧
  (∀ x, outcome (Decoder.decompress (written (Encoder.compress x))) = Ok tt).
Proof.
  split; [apply rebuild_string_dms|]. split; [apply decoder_step_sentinel|].
  split; [|split].
  - intros sd k Hlen. split.
    + intros H. destruct (decide (Decoder.i sd = globals.dms)) as [Hi|Hi].
      * split; [|done]. by eapply decoder_step_unstarted.
      * by destruct (decoder_step_started sd k (conj Hlen Hi)).
    + intros [-> Hi]. destruct sd as [d i]. simpl in Hi. subst i.
      by rewrite (decoder_step_sentinel d).
  - intros input. split.
    + destruct input as [|b0 [|b1 rest]]; [done..|].
      intros H. exists b0, b1, rest. split; [done|].
      by apply (decoder_first_code _ rest b0 b1 eq_refl).
    + intros (b0 & b1 & rest & -> & Hb). by apply (decoder_first_code _ rest b0 b1 Hb).
  - intros x. destruct (compress_decompress x) as (codes & -> & Hdec & _).
    simpl. by rewrite Hdec.
Qed.

(** The stream of the single code 256, on a little-endian host. *)
Lemma decoder_precondition_witness :
  N.of_nat (length (@Decoder.reset_dictionary x86_64)) ≤ globals.dms ∧
  outcome (@Decoder.decompress x86_64 [Byte.x00; Byte.x01]) = Raise EmptyFront.
Proof.
  split; [vm_compute; discriminate|].
  apply (proj1 (proj2 (proj2 (proj2 (@decoder_precondition x86_64))))).
  exists Byte.x00, Byte.x01, []. split; reflexivity.
Defined.

(** * Further properties *)

(** ** Sizes, prefixes and injectivity *)

Section more_encoder.
Context {P : Platform}.

Lemma code_bytes_length (i : N) : length (code_bytes i) = 2%nat.
Proof. unfold code_bytes. by destruct little_endian. Qed.

(** Under [sim], what is left to write is a whole number of codes, at
    most one for each byte still to read and one for the flush. *)
Lemma sim_run_length (xs : list byte) : ∀ se sd c0 w,
  sim se sd c0 w →
  ∃ n, length (written (Encoder.loop se xs ≫= Encoder.flush)) = (2 * n)%nat ∧
       (1 ≤ n ≤ length xs + 1)%nat.
Proof.
  induction xs as [|b xs IH]; intros se sd c0 w Hsim.
  - exists 1%nat. simpl. io_simpl. unfold Encoder.flush.
    pose proof (sim_pending _ _ _ _ Hsim) as Hi. apply N.eqb_neq in Hi.
    rewrite Hi. simpl. rewrite code_bytes_length. lia.
  - destruct (sim_step se sd c0 w b Hsim)
      as [(se1 & Hstep & Hsim1 & _)|(se1 & sd1 & Hstep & _ & Hsim1 & _)];
      destruct (IH _ _ _ _ Hsim1) as (n & Hn & Hle);
      rewrite (encoder_run_cons _ _ _ _ _ Hstep); cbn [written].
    + exists n. simpl. split; [done|lia].
    + exists (S n). rewrite length_app, code_bytes_length, Hn. simpl. lia.
Qed.

Lemma encoder_loop_app (x y : list byte) : ∀ st,
  Encoder.loop st (x ++ y) = Encoder.loop st x ≫= λ st', Encoder.loop st' y.
Proof.
  induction x as [|b x IH]; intros st; cbn [Encoder.loop app].
  - io_simpl. by destruct (Encoder.loop st y).
  - destruct (Encoder.step st (char_of_byte b)) as [o [st'|f]]; io_simpl; [|done].
    rewrite IH. destruct (Encoder.loop st' x) as [o1 [st1|f1]]; io_simpl; [|done].
    by rewrite app_assoc.
Qed.
(** The output is a whole number of codes: none for the empty input,
    and otherwise at least one and at most one for each byte. *)
Lemma compress_length (x : list byte) :
  ∃ n, length (written (Encoder.compress x)) = (2 * n)%nat ∧
       (n ≤ length x)%nat ∧ (n = 0%nat ↔ x = []).
Proof.
  unfold Encoder.compress. destruct x as [|b [|b2 xs]].
  - by exists 0%nat.
  - pose proof (char_of_byte_range b) as Hc.
    pose proof (base_code_lt _ Hc) as Hlt.
    exists 1%nat. rewrite (encoder_run_cons _ _ _ _ _ (encoder_step_first _ Hc)).
    simpl. io_simpl. unfold Encoder.flush. simpl.
    destruct (N.eqb_spec (base_code (char_of_byte b)) globals.dms) as [E|_].
    { rewrite dms_value in E. lia. }
    simpl. rewrite code_bytes_length. split; [done|]. split; [lia|]. done.
  - pose proof (char_of_byte_range b) as Hc.
    destruct (sim_second_byte b b2) as (se2 & Hstep & Hsim & _).
    destruct (sim_run_length xs _ _ _ _ Hsim) as (n & Hn & Hle).
    exists (S n). rewrite (encoder_run_cons _ _ _ _ _ (encoder_step_first _ Hc)).
    rewrite (encoder_run_cons _ _ _ _ _ Hstep). cbn [written app].
    rewrite length_app, code_bytes_length, Hn. simpl. split; [lia|].
    split; [lia|]. done.
Qed.
End more_encoder.

(** X1. [compress] writes whole 16-bit codes, at most one for each
    input byte: the output has even length and is never more than
    twice as long as the input. It is empty only for the empty input. *)
Theorem compress_size {P : Platform} (x : list byte) :
  Nat.even (length (written (Encoder.compress x))) = true ∧
  (length (written (Encoder.compress x)) ≤ 2 * length x)%nat ∧
  (written (Encoder.compress x) = [] ↔ x = []).
Proof.
  destruct (compress_length x) as (n & Hn & Hle & Hn0). rewrite Hn.
  split; [apply Nat.even_spec; by exists n|]. split; [lia|]. split.
  - intros E. apply Hn0. rewrite E in Hn. simpl in Hn. lia.
  - intros Hx. apply Hn0 in Hx. subst n. by apply nil_length_inv.
Qed.

(** X2. [compress] is lossless: two inputs for which it writes the same
    bytes are the same input. *)
Theorem compress_injective {P : Platform} (x y : list byte) :
  written (Encoder.compress x) = written (Encoder.compress y) → x = y.
Proof.
  intros E.
  destruct (compress_decompress x) as (cx & Hx & Hdx & _).
  destruct (compress_decompress y) as (cy & Hy & Hdy & _).
  rewrite Hx, Hy in E. cbn [written] in E. subst cy.
  rewrite Hdx in Hdy. by simplify_eq.
Qed.

Lemma compress_injective_witness :
  written (@Encoder.compress aarch64 [Byte.x41]) =
    written (@Encoder.compress aarch64 [Byte.x41]) ∧
  [Byte.x41] = [Byte.x41].
Proof.
  split; [reflexivity|].
  apply (@compress_injective aarch64 [Byte.x41] [Byte.x41]). reflexivity.
Defined.

(** X3. [compress] works online: the codes it has written after reading
    [x] are the beginning of its output for any input that starts with
    [x]. *)
Theorem compress_online {P : Platform} (x y : list byte) :
  written (Encoder.loop Encoder.init x) `prefix_of`
  written (Encoder.compress (x ++ y)).
Proof.
  unfold Encoder.compress. rewrite encoder_loop_app.
  destruct (Encoder.loop Encoder.init x) as [o [st|f]]; io_simpl.
  - destruct (Encoder.loop st y) as [o1 [st1|f1]]; io_simpl.
    + rewrite <-app_assoc. by eexists.
    + by eexists.
  - exists []. by rewrite app_nil_r.
Qed.

Section more_decoder.
Context {P : Platform}.

Lemma decoder_loop_app (pre : list byte) : ∀ sd rest,
  Nat.even (length pre) = true →
  written (Decoder.loop sd pre) `prefix_of` written (Decoder.loop sd (pre ++ rest)) ∧
  ∀ f, outcome (Decoder.loop sd pre) = Raise f →
       Decoder.loop sd (pre ++ rest) = Decoder.loop sd pre.
Proof.
  induction pre as [|a|b0 b1 pre IH] using list_pair_ind; intros sd rest Hev.
  - split; [by eexists|done].
  - done.
  - simpl in Hev. change ((b0 :: b1 :: pre) ++ rest) with (b0 :: b1 :: (pre ++ rest)).
    rewrite !decoder_loop_cons.
    destruct (Decoder.step sd (bytes_code b0 b1)) as [o [sd'|f]]; io_simpl.
    + destruct (IH sd' rest Hev) as [[t Ht] Hfail]. split.
      * exists t. by rewrite Ht, app_assoc.
      * intros f Hf. by rewrite (Hfail f Hf).
    + split; [by exists []; rewrite app_nil_r|done].
Qed.
End more_decoder.

(** X4. [decompress] is final about a failure and never takes back what
    it wrote: what it writes for a stream of complete codes is the
    beginning of what it writes for any longer stream, and when it fails
    on the stream it ends the same way on every longer one. *)
Theorem decompress_prefix {P : Platform} (pre rest : list byte) :
  Nat.even (length pre) = true →
  written (Decoder.decompress pre) `prefix_of` written (Decoder.decompress (pre ++ rest)) ∧
  ∀ f, outcome (Decoder.decompress pre) = Raise f →
       Decoder.decompress (pre ++ rest) = Decoder.decompress pre.
Proof. apply decoder_loop_app. Qed.

Lemma decompress_prefix_witness :
  Nat.even (length [Byte.xff; Byte.xff]) = true ∧
  written (@Decoder.decompress x86_64 [Byte.xff; Byte.xff]) `prefix_of`
    written (@Decoder.decompress x86_64 ([Byte.xff; Byte.xff] ++ [Byte.x00])) ∧
  ∀ f, outcome (@Decoder.decompress x86_64 [Byte.xff; Byte.xff]) = Raise f →
       @Decoder.decompress x86_64 ([Byte.xff; Byte.xff] ++ [Byte.x00]) =
       @Decoder.decompress x86_64 [Byte.xff; Byte.xff].
Proof.
  split; [reflexivity|].
  apply (@decompress_prefix x86_64 [Byte.xff; Byte.xff] [Byte.x00]). reflexivity.
Defined.

(** ** [rebuild_string] *)

Section more_rebuild.
Context {P : Platform}.
Implicit Types (d : list (N * Z)) (k p : N) (s : list Z).

Lemma rebuild_loop_finds_cycle fuel : ∀ d k s (vs : list N),
  NoDup vs →
  (∀ v, v ∈ vs → (N.to_nat v < length d)%nat ∧ tc (follows d) v k) →
  (length d < length vs + fuel)%nat →
  Decoder.rebuild_loop fuel d k s = Raise Unbounded →
  ∃ v, rtc (follows d) k v ∧ tc (follows d) v v.
Proof.
  induction fuel as [|fuel IH]; intros d k s vs Hnd Hvs Hlen Hrun.
  - exfalso.
    assert (N.to_nat <$> vs ⊆+ seq 0 (length d)) as Hsub.
    { apply NoDup_submseteq.
      - by apply (NoDup_fmap_2 N.to_nat).
      - intros n (v & -> & Hv)%list_elem_of_fmap. apply elem_of_seq.
        destruct (Hvs v Hv). lia. }
    apply submseteq_length in Hsub. rewrite length_fmap, length_seq in Hsub. lia.
  - rewrite rebuild_loop_S in Hrun.
    destruct (N.eqb_spec k globals.dms) as [|Hk]; [done|].
    unfold Decoder.vector_at in Hrun.
    destruct (d !! N.to_nat k) as [[p c]|] eqn:Hpc; [|done].
    cbn [mbind result_bind fst snd] in Hrun.
    assert (follows d k p) as Hkp by by econstructor.
    destruct (decide (k ∈ vs)) as [Hin|Hout].
    + exists k. split; [done|]. by apply Hvs.
    + destruct (IH d p (s ++ [c]) (k :: vs)) as (v & Hpv & Hvv);
        [by constructor| |simpl; lia|done|].
      * intros v [->|Hv]%elem_of_cons.
        -- split; [by eapply lookup_lt_Some|by apply tc_once].
        -- destruct (Hvs v Hv) as [Hlt Hvk]. split; [done|by eapply tc_r].
      * exists v. split; [by eapply rtc_l|done].
Qed.

Lemma rebuild_loop_into_cycle d k v :
  rtc (follows d) k v → tc (follows d) v v →
  ∀ fuel s, Decoder.rebuild_loop fuel d k s = Raise Unbounded.
Proof.
  induction 1 as [k|k p v Hkp _ IH]; intros Hcyc fuel s.
  - by apply rebuild_loop_cycle.
  - destruct fuel as [|fuel]; [done|].
    apply (rebuild_loop_follows _ _ _ p); [done|]. intros s'. by apply IH.
Qed.

Lemma rebuild_string_raise d k f :
  Decoder.rebuild_string d k = Raise f ↔
  Decoder.rebuild_loop (S (length d)) d k [] = Raise f.
Proof.
  unfold Decoder.rebuild_string.
  destruct (Decoder.rebuild_loop _ d k []); cbn [mbind result_bind mret result_ret];
    unfold mret, result_ret; split; congruence.
Qed.
End more_rebuild.

(** The loop of [rebuild_string] as a recursion on the prefix. *)
Lemma rebuild_string_eq {P : Platform} (d : list (N * Z)) (k : CodeType) :
  Decoder.rebuild_string d k =
    if k =? globals.dms then Ok []
    else match d !! N.to_nat k with
         | None => Raise OutOfRange
         | Some (p, c) => s ← Decoder.rebuild_string d p; Ok (s ++ [c])
         end.
Proof.
  destruct (N.eqb_spec k globals.dms) as [->|Hk]; [done|].
  destruct (d !! N.to_nat k) as [[p c]|] eqn:Hpc.
  - assert (Decoder.rebuild_loop (S (length d)) d p [] =
            Decoder.rebuild_loop (length d) d p []) as Hp.
    { destruct (Decoder.rebuild_loop (length d) d p []) as [r|f] eqn:E.
      - rewrite <-E. apply rebuild_loop_more; [by rewrite E|lia].
      - destruct (decide (f = Unbounded)) as [->|Hf].
        + assert (Decoder.rebuild_loop (S (length d)) d k [] = Raise Unbounded) as Hrun.
          { apply (rebuild_loop_follows _ _ _ p); [by econstructor|].
            intros s'. rewrite <-(app_nil_r s'), rebuild_loop_acc. by rewrite E. }
          pose proof (rebuild_loop_unbounded d k [] Hrun (S (S (length d))) []) as H2.
          rewrite rebuild_loop_S in H2. apply N.eqb_neq in Hk. rewrite Hk in H2.
          unfold Decoder.vector_at in H2. rewrite Hpc in H2.
          cbn [mbind result_bind fst snd app] in H2.
          rewrite <-(app_nil_r [c]), rebuild_loop_acc in H2.
          by destruct (Decoder.rebuild_loop (S (length d)) d p []).
        + rewrite <-E. apply rebuild_loop_more; [|lia]. rewrite E. congruence. }
    unfold Decoder.rebuild_string. rewrite rebuild_loop_S.
    apply N.eqb_neq in Hk. rewrite Hk. unfold Decoder.vector_at. rewrite Hpc.
    cbn [mbind result_bind fst snd app].
    rewrite <-(app_nil_r [c]), rebuild_loop_acc, Hp.
    destruct (Decoder.rebuild_loop (length d) d p []) as [r|f];
      cbn [mbind result_bind mret result_ret]; [|done].
    by rewrite rev_app_distr.
  - unfold Decoder.rebuild_string. rewrite rebuild_loop_S.
    apply N.eqb_neq in Hk. rewrite Hk. unfold Decoder.vector_at. by rewrite Hpc.
Qed.

(** X5. [rebuild_string] computes the string of a code by its defining
    equation: empty for [dms]; for a code with the entry (prefix, byte)
    the string of the prefix followed by the byte; [std::out_of_range]
    for a code that has no entry. *)
Theorem rebuild_string_unfold {P : Platform} (d : list (N * Z)) (k : CodeType) :
  Decoder.rebuild_string d k =
    if k =? globals.dms then Ok []
    else match d !! N.to_nat k with
         | None => Raise OutOfRange
         | Some (p, c) => s ← Decoder.rebuild_string d p; Ok (s ++ [c])
         end.
Proof. apply rebuild_string_eq. Qed.

(** X6. The loop of [rebuild_string] fails to end exactly when the chain
    of prefixes of [k] runs into a cycle; otherwise it returns or
    [at()] throws. *)
Theorem rebuild_string_cycles {P : Platform} (d : list (N * Z)) (k : CodeType) :
  Decoder.rebuild_string d k = Raise Unbounded ↔
  ∃ v, rtc (follows d) k v ∧ tc (follows d) v v.
Proof.
  rewrite rebuild_string_raise. split.
  - apply (rebuild_loop_finds_cycle _ d k [] []);
      [constructor|by intros v ?%elem_of_nil|simpl; lia].
  - intros (v & Hkv & Hvv). by apply (rebuild_loop_into_cycle d k v).
Qed.

(** ** Invariants of the two loops *)

Section invariants.
Context {P : Platform}.

Lemma decode_dictionary d i k d' s :
  Decoder.decode d i k = Ok (d', s) →
  (k ≠ N.of_nat (length d) ∧ d' = d) ∨ ∃ c, d' = d ++ [(i, c)].
Proof.
  unfold Decoder.decode. destruct (N.eqb_spec k (N.of_nat (length d))).
  - destruct (Decoder.rebuild_string d i) as [si|]; simpl; [|done].
    destruct (Decoder.front si) as [c|]; simpl; [|done].
    destruct (Decoder.rebuild_string _ k) as [s'|]; simpl; [|done].
    intros [= <- <-]. right. by exists c.
  - destruct (Decoder.rebuild_string d k) as [s'|]; simpl; [|done].
    destruct (i =? globals.dms); [intros [= <- <-]; by left|].
    destruct (Decoder.front s') as [c|]; simpl; [|done].
    intros [= <- <-]. right. by exists c.
Qed.

Lemma decoder_step_dictionary sd k sd' :
  outcome (Decoder.step sd k) = Ok sd' →
  Decoder.i sd' = k ∧ k ≤ N.of_nat (length (Decoder.current sd)) ∧
  ((k ≠ N.of_nat (length (Decoder.current sd)) ∧
    Decoder.dictionary sd' = Decoder.current sd) ∨
   ∃ c, Decoder.dictionary sd' = Decoder.current sd ++ [(Decoder.i sd, c)]).
Proof.
  destruct (decide (N.of_nat (length (Decoder.current sd)) < k)) as [Hk|Hk].
  { by rewrite decoder_step_invalid. }
  rewrite decoder_step_valid by done.
  destruct (Decoder.decode _ _ k) as [[d s]|f] eqn:E; [|done].
  destruct (Decoder.front s); [|done]. simpl. intros [= <-]. simpl.
  split; [done|]. split; [lia|]. by eapply decode_dictionary.
Qed.

Lemma decoder_current_base sd :
  (∃ ext, Decoder.dictionary sd = Decoder.reset_dictionary ++ ext) →
  ∃ ext, Decoder.current sd = Decoder.reset_dictionary ++ ext.
Proof.
  intros H. unfold Decoder.current. destruct (Decoder.at_capacity sd); [|done].
  exists []. by rewrite app_nil_r.
Qed.

(** The states of [compress]: before the first byte, after it, and
    then in [sim] with a state of the decoder. *)
Lemma encoder_reachable_sim se :
  encoder_reachable se →
  (Encoder.dictionary se = Encoder.reset_dictionary ∧
   (Encoder.i se = globals.dms ∨ ∃ b, Encoder.i se = base_code (char_of_byte b))) ∨
  ∃ sd c0 w, sim se sd c0 w.
Proof.
  induction 1 as [|se b se' _ IH Hstep].
  - left. split; [done|by left].
  - destruct IH as [[Hd [Hi|[b0 Hi]]]|(sd & c0 & w & Hsim)].
    + destruct se as [d i]. simpl in Hd, Hi. subst d i. fold Encoder.init in Hstep.
      rewrite encoder_step_first in Hstep by apply char_of_byte_range.
      simpl in Hstep. simplify_eq. left. split; [done|]. right. by exists b.
    + destruct se as [d i]. simpl in Hd, Hi. subst d i.
      destruct (sim_second_byte b0 b) as (se2 & Hstep2 & Hsim & _).
      rewrite Hstep2 in Hstep. simpl in Hstep. simplify_eq.
      right. eauto.
    + destruct (sim_step se sd c0 w b Hsim)
        as [(se1 & Hstep1 & Hsim1 & _)|(se1 & sd1 & Hstep1 & _ & Hsim1 & _)];
        rewrite Hstep1 in Hstep; simpl in Hstep; simplify_eq; right; eauto.
Qed.
End invariants.

(** X7. Whatever the stream, the vector of [decompress] begins with the
    256 base entries and never holds more than 65535 entries; the
    previous code is [dms] only before the first code, and after it is
    a code the dictionary had room for. *)
Theorem decoder_invariant {P : Platform} (sd : Decoder.state) :
  decoder_reachable sd →
  (∃ ext, Decoder.dictionary sd = Decoder.reset_dictionary ++ ext) ∧
  (256 ≤ length (Decoder.dictionary sd))%nat ∧
  N.of_nat (length (Decoder.dictionary sd)) ≤ 65535 ∧
  (Decoder.i sd = globals.dms → sd = Decoder.init) ∧
  (Decoder.i sd ≠ globals.dms → Decoder.i sd < N.of_nat (length (Decoder.dictionary sd))).
Proof.
  intros H.
  assert ((∃ ext, Decoder.dictionary sd = Decoder.reset_dictionary ++ ext) ∧
          N.of_nat (length (Decoder.dictionary sd)) ≤ globals.dms ∧
          (Decoder.i sd = globals.dms → sd = Decoder.init) ∧
          (Decoder.i sd ≠ globals.dms →
           Decoder.i sd < N.of_nat (length (Decoder.dictionary sd)))) as (Hb & Hl & Hi & Hi').
  { induction H as [|sd k sd' _ IH Hstep].
    - split; [exists []; by rewrite app_nil_r|]. split; [|done].
      simpl. rewrite decoder_reset_length, dms_value. lia.
    - destruct IH as (Hb & Hl & _).
      pose proof (decoder_current_bound sd Hl) as Hcur.
      destruct (decoder_current_base sd Hb) as [ext Hext].
      apply decoder_step_dictionary in Hstep as (Hk & Hle & [[Hne Hd]|[c Hd]]);
        rewrite Hd.
      + split; [by exists ext|]. split; [lia|]. rewrite Hk. split; lia.
      + split; [exists (ext ++ [(Decoder.i sd, c)]); by rewrite Hext, app_assoc|].
        rewrite length_app. simpl. split; [lia|]. rewrite Hk. split; lia. }
  split; [done|]. split; [|split; [by rewrite dms_value in Hl|done]].
  destruct Hb as [ext ->]. rewrite length_app, decoder_reset_length. lia.
Qed.

Lemma decoder_invariant_witness :
  let sd := @Decoder.init x86_64 in
  @decoder_reachable x86_64 sd ∧
  (∃ ext, Decoder.dictionary sd = @Decoder.reset_dictionary x86_64 ++ ext) ∧
  (256 ≤ length (Decoder.dictionary sd))%nat ∧
  N.of_nat (length (Decoder.dictionary sd)) ≤ 65535 ∧
  (Decoder.i sd = globals.dms → sd = @Decoder.init x86_64) ∧
  (Decoder.i sd ≠ globals.dms →
   Decoder.i sd < N.of_nat (length (Decoder.dictionary sd))).
Proof.
  intros sd. split; [constructor|].
  apply (@decoder_invariant x86_64 sd). constructor.
Defined.

(** X8. Whatever the input, the map of [compress] holds between 256 and
    65535 entries, among them every base entry under its code; the codes
    it gives are below its size and no two keys have the same code; and
    the pending code is [dms] or one of these codes. *)
Theorem encoder_invariant {P : Platform} (se : Encoder.state) :
  encoder_reachable se →
  (256 ≤ size (Encoder.dictionary se))%nat ∧
  N.of_nat (size (Encoder.dictionary se)) ≤ 65535 ∧
  (∀ b : byte, Encoder.dictionary se !! (globals.dms, char_of_byte b) =
               Some (base_code (char_of_byte b))) ∧
  (∀ key v, Encoder.dictionary se !! key = Some v →
            v < N.of_nat (size (Encoder.dictionary se))) ∧
  (∀ key1 key2 v, Encoder.dictionary se !! key1 = Some v →
                  Encoder.dictionary se !! key2 = Some v → key1 = key2) ∧
  (Encoder.i se = globals.dms ∨
   ∃ key, Encoder.dictionary se !! key = Some (Encoder.i se)).
Proof.
  intros H.
  assert (∃ d, corr (Encoder.dictionary se) d ∧ wf d ∧
               (Encoder.i se = globals.dms ∨ N.to_nat (Encoder.i se) < length d)%nat)
    as (d & Hcorr & Hwf & Hi).
  { destruct (encoder_reachable_sim se H) as [[Hd Hi]|(sd & c0 & w & Hsim)].
    - exists Decoder.reset_dictionary. rewrite Hd.
      split; [apply corr_reset|]. split; [apply wf_reset|].
      destruct Hi as [Hi|[b Hi]]; [by left|right].
      pose proof (base_code_lt _ (char_of_byte_range b)).
      rewrite decoder_reset_length, Hi. lia.
    - destruct Hsim as [_ Hcorr Hwf Hw _ _]. eexists. split; [done|].
      split; [done|]. right. by eapply decodes_lookup. }
  pose proof (wf_length _ Hwf) as Hlen. pose proof (wf_size _ Hwf) as Hsz.
  rewrite (corr_size _ _ Hcorr).
  split; [done|]. split; [by rewrite dms_value in Hsz|].
  split; [|split; [|split]].
  - intros b.
    rewrite (corr_lookup_inv _ _ _ _ Hcorr
               (wf_lookup_base_code _ _ Hwf (char_of_byte_range b))).
    by rewrite N2Nat.id.
  - intros key v Hv. apply (corr_lookup _ _ _ _ Hcorr), lookup_lt_Some in Hv. lia.
  - intros key1 key2 v H1 H2.
    apply (corr_lookup _ _ _ _ Hcorr) in H1, H2. congruence.
  - destruct Hi as [Hi|Hi]; [by left|right].
    destruct (lookup_lt_is_Some_2 _ _ Hi) as [key Hkey]. exists key.
    rewrite (corr_lookup_inv _ _ _ _ Hcorr Hkey). by rewrite N2Nat.id.
Qed.

Lemma encoder_invariant_witness :
  let se := @Encoder.init aarch64 in
  @encoder_reachable aarch64 se ∧
  (256 ≤ size (Encoder.dictionary se))%nat ∧
  N.of_nat (size (Encoder.dictionary se)) ≤ 65535 ∧
  (∀ b : byte, Encoder.dictionary se !! (globals.dms, @char_of_byte aarch64 b) =
               Some (@base_code aarch64 (@char_of_byte aarch64 b))) ∧
  (∀ key v, Encoder.dictionary se !! key = Some v →
            v < N.of_nat (size (Encoder.dictionary se))) ∧
  (∀ key1 key2 v, Encoder.dictionary se !! key1 = Some v →
                  Encoder.dictionary se !! key2 = Some v → key1 = key2) ∧
  (Encoder.i se = globals.dms ∨
   ∃ key, Encoder.dictionary se !! key = Some (Encoder.i se)).
Proof.
  intros se. split; [constructor|].
  apply (@encoder_invariant aarch64 se). constructor.
Defined.

(** ** Streams that [compress] does not write *)

Section stale.
Context {P : Platform}.

Lemma zeros_loop (n : nat) : ∀ (m : nat) rest,
  N.of_nat (256 + m + n) ≤ globals.dms →
  Decoder.loop {| Decoder.dictionary := Decoder.reset_dictionary ++ replicate m (0, minc);
                  Decoder.i := 0 |}
               (concat (replicate n (code_bytes 0)) ++ rest) =
    let r := Decoder.loop
               {| Decoder.dictionary :=
                    Decoder.reset_dictionary ++ replicate (m + n) (0, minc);
                  Decoder.i := 0 |} rest in
    IO (replicate n (byte_of_char minc) ++ written r) (outcome r).
Proof.
  induction n as [|n IH]; intros m rest Hm.
  - rewrite Nat.add_0_r. simpl. by destruct (Decoder.loop _ rest).
  - rewrite replicate_S. cbn [concat]. rewrite <-app_assoc.
    rewrite decoder_loop_code by lia. rewrite zeros_step by lia. io_simpl.
    rewrite IH by lia. cbn zeta. cbn [written outcome].
    by replace (S m + n)%nat with (m + S n)%nat by lia.
Qed.

(** The last three codes of [stale_stream]: [j] fills the dictionary,
    0 is read after the reset and makes the entry 256 with the stale
    prefix [j], and 256 sends [rebuild_string] to [j]. *)
Lemma stale_tail (n : nat) (j : N) :
  N.of_nat n = 65278 → 256 ≤ j ≤ 65533 →
  Decoder.loop {| Decoder.dictionary := Decoder.reset_dictionary ++ replicate n (0, minc);
                  Decoder.i := 0 |}
               (code_bytes j ++ code_bytes 0 ++ code_bytes 256) =
    IO (replicate 3 (byte_of_char minc))
       (Raise (if j =? 256 then Unbounded else OutOfRange)).
Proof.
  intros Hn Hj.
  set (sd := {| Decoder.dictionary := _; Decoder.i := 0 |}).
  set (e0 := (0, minc)) in *.
  assert (Decoder.current sd = Decoder.reset_dictionary ++ replicate n e0) as Hcur.
  { apply decoder_current_room. unfold Decoder.at_capacity. simpl.
    apply N.eqb_neq. rewrite length_app, decoder_reset_length, length_replicate.
    rewrite dms_value. lia. }
  assert (wf (Decoder.current sd ++ [(Decoder.i sd, minc)])) as Hwf.
  { rewrite Hcur. simpl. rewrite <-app_assoc. fold e0. rewrite <-replicate_S_end.
    apply wf_zeros. rewrite dms_value. lia. }
  set (D := (Decoder.reset_dictionary ++ replicate n e0) ++ [(0, minc)]).
  set (sd1 := {| Decoder.dictionary := D; Decoder.i := j |}).
  set (D2 := Decoder.reset_dictionary ++ [(j, minc)]).
  set (sd2 := {| Decoder.dictionary := D2; Decoder.i := 0 |}).
  (* the code [j] *)
  assert (Decoder.step sd j = IO (byte_of_char <$> [minc; minc]) (Ok sd1)) as H1.
  { rewrite (decoder_step_next sd minc j [minc; minc]); try done.
    - by rewrite Hcur.
    - change [minc; minc] with ([minc] ++ [minc]).
      apply (decodes_ext _ j 0 minc [minc]);
        [|lia|rewrite dms_value; lia|by apply decodes_zero].
      rewrite Hcur. simpl. rewrite <-app_assoc. fold e0. rewrite <-replicate_S_end.
      rewrite lookup_app_r by (rewrite decoder_reset_length; lia).
      apply lookup_replicate_2. rewrite decoder_reset_length. lia.
    - rewrite Hcur, length_app, decoder_reset_length. simpl. lia. }
  (* the code 0, after the reset *)
  assert (Decoder.step sd1 0 = IO (byte_of_char <$> [minc]) (Ok sd2)) as H2.
  { assert (Decoder.current sd1 = Decoder.reset_dictionary) as Hcur1.
    { apply decoder_current_full. unfold Decoder.at_capacity. simpl.
      apply N.eqb_eq. unfold D.
      rewrite !length_app, decoder_reset_length, length_replicate. simpl.
      rewrite dms_value. lia. }
    rewrite (decoder_step_valid sd1 0) by lia. rewrite Hcur1.
    unfold Decoder.decode. rewrite decoder_reset_length.
    change (0 =? N.of_nat 256) with false. cbn iota.
    rewrite (rebuild_string_decodes _ _ _ (decodes_zero _ wf_reset)).
    cbn [mbind result_bind Decoder.i sd1].
    assert ((j =? globals.dms) = false) as ->
      by (apply N.eqb_neq; rewrite dms_value; lia).
    done. }
  (* the code 256 *)
  assert (Decoder.step sd2 256 =
          IO [] (Raise (if j =? 256 then Unbounded else OutOfRange))) as H3.
  { assert (length D2 = 257%nat) as Hlen2.
    { unfold D2. rewrite length_app, decoder_reset_length. done. }
    assert (Decoder.current sd2 = D2) as Hcur2.
    { apply decoder_current_room. unfold Decoder.at_capacity. simpl.
      apply N.eqb_neq. rewrite Hlen2, dms_value. lia. }
    assert (D2 !! N.to_nat 256 = Some (j, minc)) as H256.
    { unfold D2. rewrite lookup_app_r by (rewrite decoder_reset_length; lia).
      rewrite decoder_reset_length. done. }
    rewrite (decoder_step_valid sd2 256) by (rewrite Hcur2, Hlen2; lia).
    rewrite Hcur2. unfold Decoder.decode. rewrite Hlen2.
    change (256 =? N.of_nat 257) with false. cbn iota.
    assert (Decoder.rebuild_string D2 256 =
            Raise (if j =? 256 then Unbounded else OutOfRange)) as ->; [|done].
    destruct (N.eqb_spec j 256) as [->|Hne].
    - apply rebuild_string_raise, rebuild_loop_cycle, tc_once.
      econstructor; [|exact H256]. rewrite dms_value. lia.
    - rewrite rebuild_string_eq.
      assert ((256 =? globals.dms) = false) as -> by done.
      rewrite H256, rebuild_string_eq.
      assert ((j =? globals.dms) = false) as ->
        by (apply N.eqb_neq; rewrite dms_value; lia).
      rewrite (lookup_ge_None_2 D2 (N.to_nat j)) by (rewrite Hlen2; lia). done. }
  rewrite decoder_loop_code, H1 by lia. io_simpl.
  rewrite decoder_loop_code, H2 by lia. io_simpl.
  rewrite <-(app_nil_r (code_bytes 256)), decoder_loop_code, H3 by lia.
  by io_simpl.
Qed.

Lemma decompress_stale (j : N) :
  256 ≤ j ≤ 65533 →
  Decoder.decompress (stale_stream j) =
    IO (replicate (N.to_nat 65282) (byte_of_char minc))
       (Raise (if j =? 256 then Unbounded else OutOfRange)).
Proof.
  intros Hj. unfold Decoder.decompress, stale_stream.
  set (n := N.to_nat 65278).
  assert (N.of_nat n = 65278) as Hn by (unfold n; lia).
  replace (N.to_nat 65279) with (S n) by (unfold n; lia).
  replace (N.to_nat 65282) with (1 + (n + 3))%nat by (unfold n; lia).
  clearbody n.
  rewrite replicate_S. cbn [concat]. rewrite <-app_assoc.
  rewrite decoder_loop_code by lia.
  rewrite <-base_code_minc at 1. rewrite (decoder_step_first minc minc_range).
  rewrite base_code_minc. io_simpl.
  assert ({| Decoder.dictionary := Decoder.reset_dictionary; Decoder.i := 0 |} =
          {| Decoder.dictionary := Decoder.reset_dictionary ++ replicate 0 (0, minc);
             Decoder.i := 0 |}) as -> by (simpl; by rewrite app_nil_r).
  rewrite zeros_loop by (rewrite dms_value; lia). cbn zeta.
  change (0 + n)%nat with n.
  rewrite (stale_tail n j Hn Hj). cbn [written outcome].
  by rewrite !replicate_add.
Qed.

Lemma stale_stream_even (j : N) : Nat.even (length (stale_stream j)) = true.
Proof.
  apply Nat.even_spec. exists (N.to_nat 65279 + 3)%nat.
  unfold stale_stream. rewrite !length_app, !code_bytes_length.
  generalize (N.to_nat 65279). intros n.
  assert (length (concat (replicate n (code_bytes 0))) = (2 * n)%nat) as ->; [|lia].
  induction n as [|n IH]; [done|].
  rewrite replicate_S. cbn [concat]. rewrite length_app, code_bytes_length, IH. lia.
Qed.
End stale.

(** X9. The test on [k] does not catch every bad stream. After a reset
    the first entry is made from the code read before the reset, which
    the emptied dictionary need not hold. In these streams that code is
    [j]: for [j] above 256 reading the entry ends in [std::out_of_range]
    from [at()], not in "invalid compressed code"; for [j] = 256 the
    entry is its own prefix and the loop of [rebuild_string] has no end.
    Either way 65282 bytes are written before, and what follows in the
    stream is never read. *)
Theorem decompress_stale_entry {P : Platform} (j : CodeType) (rest : list byte) :
  256 ≤ j ≤ 65533 →
  Decoder.decompress (stale_stream j ++ rest) =
    IO (replicate (N.to_nat 65282) (byte_of_char minc))
       (Raise (if j =? 256 then Unbounded else OutOfRange)).
Proof.
  intros Hj. pose proof (decompress_stale j Hj) as Hrun.
  destruct (decoder_loop_app (stale_stream j) Decoder.init rest (stale_stream_even j))
    as [_ Hfin].
  unfold Decoder.decompress in *. erewrite Hfin; [exact Hrun|by rewrite Hrun].
Qed.

Lemma decompress_stale_entry_witness :
  256 ≤ 300 ≤ 65533 ∧
  @Decoder.decompress x86_64 (@stale_stream x86_64 300 ++ [Byte.x00]) =
    IO (replicate (N.to_nat 65282) (@byte_of_char (-128)%Z)) (Raise OutOfRange).
Proof.
  split; [lia|]. apply (@decompress_stale_entry x86_64 300 [Byte.x00]). lia.
Defined.

(** ** Runs of one byte *)

Section runs_of_a_byte.
Context {P : Platform}.

Lemma sim_single se sd c0 c :
  sim se sd c0 [c] → Encoder.i se = base_code c.
Proof.
  intros [_ _ Hwf Hw _ _].
  inversion Hw as [k c' Hk _|k p c' s Hk _ _ Hs Heq]; subst.
  - pose proof (wf_lookup_dms _ _ _ Hwf Hk) as Hlt.
    rewrite (wf_lookup_base _ _ Hwf Hlt) in Hk. simplify_eq.
    unfold base_code. lia.
  - apply decodes_nonempty in Hs. by destruct s as [|? [|]].
Qed.

(** The third byte of a run is found in the dictionary: nothing is
    written for it. *)
Lemma run_third_byte (b : byte) :
  let c := char_of_byte b in
  ∃ se2 se3 sd c0 w,
    Encoder.step {| Encoder.dictionary := Encoder.reset_dictionary;
                    Encoder.i := base_code c |} c =
      IO (code_bytes (base_code c)) (Ok se2) ∧
    Encoder.step se2 c = IO [] (Ok se3) ∧
    sim se3 sd c0 w.
Proof.
  intros c. destruct (sim_second_byte b b) as (se2 & Hstep & Hsim & Hsize).
  fold c in Hstep, Hsim.
  pose proof (sim_single _ _ _ _ Hsim) as Hi.
  assert (Encoder.at_capacity se2 = false) as Hroom.
  { unfold Encoder.at_capacity. apply N.eqb_neq.
    rewrite Hsize, encoder_reset_size, dms_value. lia. }
  assert (Encoder.dictionary se2 !! (Encoder.i se2, c) = Some 256) as Hkey.
  { destruct Hsim as [_ Hcorr _ _ _ _].
    rewrite decoder_current_room in Hcorr by apply decoder_init_room.
    simpl in Hcorr. rewrite Hi.
    rewrite (corr_lookup_inv _ _ _ 256%nat Hcorr); [done|].
    rewrite lookup_app_r by (rewrite decoder_reset_length; lia).
    by rewrite decoder_reset_length. }
  destruct (sim_step se2 _ _ _ b Hsim)
    as [(se3 & Hstep3 & Hsim3 & _)|(se3 & sd3 & Hstep3 & _)].
  - exists se2, se3. eauto 10.
  - exfalso. fold c in Hstep3.
    rewrite (encoder_step_present se2 c 256) in Hstep3
      by by rewrite encoder_current_room.
    injection Hstep3 as Hw _. symmetry in Hw.
    apply (f_equal length) in Hw. by rewrite code_bytes_length in Hw.
Qed.
End runs_of_a_byte.

(** X10. Repetition pays: for a run of three or more equal bytes
    [compress] writes fewer codes than there are bytes. *)
Theorem compress_run {P : Platform} (b : byte) (n : nat) :
  (3 ≤ n)%nat →
  (length (written (Encoder.compress (replicate n b))) ≤ 2 * (n - 1))%nat.
Proof.
  intros Hn. destruct n as [|[|[|m]]]; [lia..|]. clear Hn.
  rewrite !replicate_S. unfold Encoder.compress.
  pose proof (char_of_byte_range b) as Hc.
  destruct (run_third_byte b) as (se2 & se3 & sd & c0 & w & H2 & H3 & Hsim).
  destruct (sim_run_length (replicate m b) _ _ _ _ Hsim) as (k & Hk & Hle).
  rewrite (encoder_run_cons _ _ _ _ _ (encoder_step_first _ Hc)).
  rewrite (encoder_run_cons _ _ _ _ _ H2), (encoder_run_cons _ _ _ _ _ H3).
  cbn [written app]. rewrite length_app, code_bytes_length, Hk.
  rewrite length_replicate in Hle. lia.
Qed.

Lemma compress_run_witness :
  (3 ≤ 4)%nat ∧
  (length (written (@Encoder.compress aarch64 (replicate 4 Byte.x41))) ≤ 2 * (4 - 1))%nat.
Proof.
  split; [lia|]. apply (@compress_run aarch64 Byte.x41 4). lia.
Defined.

(** ** Streams carried between hosts *)

Lemma flip_top_involutive (b : byte) : flip_top (flip_top b) = b.
Proof. by destruct b. Qed.

Lemma byte_of_char_shift (c : Z) : byte_of_char (c + 128) = flip_top (byte_of_char c).
Proof.
  unfold flip_top, byte_of_char.
  assert (0 ≤ c mod 256 < 256)%Z as Hc by (apply Z.mod_pos_bound; lia).
  rewrite byte_of_N_to_N by lia. rewrite Z2N.id by lia.
  by rewrite Zplus_mod_idemp_l.
Qed.

Lemma fmap_rev {A B} (f : A → B) (l : list A) : f <$> rev l = rev (f <$> l).
Proof. induction l as [|a l IH]; [done|]. simpl. by rewrite fmap_app, IH. Qed.

Section signedness.
Context (PS PU : Platform).
Hypothesis HS : @char_is_signed PS = true.
Hypothesis HU : @char_is_signed PU = false.
Hypothesis HE : @little_endian PS = @little_endian PU.

Lemma reset_dictionary_shift :
  @Decoder.reset_dictionary PU = shift_entry <$> @Decoder.reset_dictionary PS.
Proof.
  unfold Decoder.reset_dictionary, char_range, minc, maxc. rewrite HS, HU.
  vm_compute. reflexivity.
Qed.

Lemma bytes_code_host (b0 b1 : byte) : @bytes_code PU b0 b1 = @bytes_code PS b0 b1.
Proof. unfold bytes_code. by rewrite HE. Qed.

Lemma rebuild_loop_shift (d : list (N * Z)) (fuel : nat) : ∀ (k : CodeType) (s : list Z),
  Decoder.rebuild_loop fuel (shift_entry <$> d) k (Z.add 128 <$> s) =
    Decoder.rebuild_loop fuel d k s ≫= λ r : list Z, Ok (Z.add 128 <$> r).
Proof.
  induction fuel as [|fuel IH]; intros k s; [done|].
  rewrite !rebuild_loop_S. destruct (k =? globals.dms); [done|].
  unfold Decoder.vector_at. rewrite list_lookup_fmap.
  destruct (d !! N.to_nat k) as [[p c]|]; [|done].
  cbn [fmap option_fmap option_map mbind result_bind shift_entry fst snd].
  rewrite <-IH, fmap_app. cbn [fmap list_fmap]. by rewrite Z.add_comm.
Qed.

Lemma rebuild_string_shift (d : list (N * Z)) (k : CodeType) :
  Decoder.rebuild_string (shift_entry <$> d) k =
    Decoder.rebuild_string d k ≫= λ r : list Z, Ok (Z.add 128 <$> r).
Proof.
  unfold Decoder.rebuild_string. rewrite length_fmap.
  change (@nil Z) with (Z.add 128 <$> @nil Z) at 1. rewrite rebuild_loop_shift.
  destruct (Decoder.rebuild_loop _ d k []) as [r|f]; [|done].
  cbn [mbind mret result_bind result_ret]. by rewrite fmap_rev.
Qed.

Lemma decode_shift (d : list (N * Z)) (i k : CodeType) :
  Decoder.decode (shift_entry <$> d) i k =
    Decoder.decode d i k ≫= λ ds : list (N * Z) * list Z,
      Ok (shift_entry <$> ds.1, Z.add 128 <$> ds.2).
Proof.
  unfold Decoder.decode. rewrite length_fmap.
  destruct (k =? N.of_nat (length d)).
  - rewrite rebuild_string_shift.
    destruct (Decoder.rebuild_string d i) as [[|c si]|f]; [done| |done].
    cbn [mbind mret result_bind result_ret Decoder.front fmap list_fmap].
    change (shift_entry <$> d ++ [(i, (128 + c)%Z)])
      with (shift_entry <$> d ++ (shift_entry <$> [(i, c)])) at 1 || idtac.
    replace ((shift_entry <$> d) ++ [(i, (128 + c)%Z)])
      with (shift_entry <$> (d ++ [(i, c)]))
      by (rewrite fmap_app; cbn [fmap list_fmap shift_entry fst snd];
          by rewrite Z.add_comm).
    rewrite rebuild_string_shift.
    by destruct (Decoder.rebuild_string (d ++ [(i, c)]) k).
  - rewrite rebuild_string_shift.
    destruct (Decoder.rebuild_string d k) as [s|f]; [|done].
    cbn [mbind mret result_bind result_ret].
    destruct (i =? globals.dms); [done|].
    destruct s as [|c s]; [done|].
    cbn [mbind mret result_bind result_ret Decoder.front fmap list_fmap fst snd].
    rewrite fmap_app. cbn [fmap list_fmap shift_entry fst snd].
    by rewrite Z.add_comm.
Qed.

(** The same code read on the two hosts: the same outcome, and bytes
    that differ in the top bit. *)
Lemma decoder_step_shift (sd : Decoder.state) (k : CodeType) :
  @Decoder.step PU
     {| Decoder.dictionary := shift_entry <$> Decoder.dictionary sd;
        Decoder.i := Decoder.i sd |} k =
  IO (flip_top <$> written (@Decoder.step PS sd k))
     (outcome (@Decoder.step PS sd k) ≫= λ sd' : Decoder.state,
        Ok {| Decoder.dictionary := shift_entry <$> Decoder.dictionary sd';
              Decoder.i := Decoder.i sd' |}).
Proof.
  unfold Decoder.step, Decoder.current, Decoder.at_capacity.
  cbn [Decoder.dictionary Decoder.i]. rewrite length_fmap.
  destruct (N.of_nat (length (Decoder.dictionary sd)) =? globals.dms).
  - rewrite reset_dictionary_shift, length_fmap.
    destruct (N.of_nat (length (@Decoder.reset_dictionary PS)) <? k); [done|].
    rewrite decode_shift.
    destruct (Decoder.decode _ (Decoder.i sd) k) as [[d' [|c s]]|f]; [done| |done].
    io_simpl. cbn [Decoder.front fmap list_fmap]. io_simpl.
    rewrite !app_nil_r. f_equal. cbn [fmap list_fmap]. f_equal.
    + by rewrite Z.add_comm, byte_of_char_shift.
    + rewrite <-!list_fmap_compose. apply list_fmap_ext. intros _ c' _. simpl.
      by rewrite Z.add_comm, byte_of_char_shift.
  - rewrite length_fmap.
    destruct (N.of_nat (length (Decoder.dictionary sd)) <? k); [done|].
    rewrite decode_shift.
    destruct (Decoder.decode _ (Decoder.i sd) k) as [[d' [|c s]]|f]; [done| |done].
    io_simpl. cbn [Decoder.front fmap list_fmap]. io_simpl.
    rewrite !app_nil_r. f_equal. cbn [fmap list_fmap]. f_equal.
    + by rewrite Z.add_comm, byte_of_char_shift.
    + rewrite <-!list_fmap_compose. apply list_fmap_ext. intros _ c' _. simpl.
      by rewrite Z.add_comm, byte_of_char_shift.
Qed.

Lemma decoder_loop_shift (input : list byte) : ∀ sd,
  @Decoder.loop PU
     {| Decoder.dictionary := shift_entry <$> Decoder.dictionary sd;
        Decoder.i := Decoder.i sd |} input =
  IO (flip_top <$> written (@Decoder.loop PS sd input))
     (outcome (@Decoder.loop PS sd input)).
Proof.
  induction input as [|a|b0 b1 input IH] using list_pair_ind; intros sd; [done..|].
  rewrite !decoder_loop_cons, bytes_code_host, decoder_step_shift.
  destruct (@Decoder.step PS sd (@bytes_code PS b0 b1)) as [o [sd'|f]]; io_simpl; [|done].
  rewrite IH. io_simpl. by rewrite fmap_app.
Qed.

Lemma decompress_shift (input : list byte) :
  @Decoder.decompress PU input =
  IO (flip_top <$> written (@Decoder.decompress PS input))
     (outcome (@Decoder.decompress PS input)).
Proof.
  unfold Decoder.decompress. rewrite <-decoder_loop_shift.
  unfold Decoder.init. cbn [Decoder.dictionary Decoder.i].
  by rewrite reset_dictionary_shift.
Qed.
End signedness.

(** X11. A compressed file does not carry over between hosts that
    disagree on the sign of [char]: on hosts of the same byte order,
    what one compresses the other decompresses without failure, to the
    input with the top bit of every byte flipped. *)
Theorem decompress_other_sign (P1 P2 : Platform) (x : list byte) :
  @char_is_signed P1 ≠ @char_is_signed P2 →
  @little_endian P1 = @little_endian P2 →
  @Decoder.decompress P2 (written (@Encoder.compress P1 x)) =
    IO (flip_top <$> x) (Ok tt).
Proof.
  intros Hs He.
  destruct (@compress_decompress P1 x) as (codes & -> & Hdec & _). cbn [written].
  destruct (@char_is_signed P1) eqn:H1, (@char_is_signed P2) eqn:H2; try done.
  - rewrite (decompress_shift P1 P2 H1 H2 He), Hdec. done.
  - pose proof (decompress_shift P2 P1 H2 H1 (eq_sym He) codes) as E.
    rewrite Hdec in E. destruct (@Decoder.decompress P2 codes) as [o r].
    cbn [written outcome] in E. injection E as Ho Hr. subst r. f_equal.
    rewrite Ho, <-list_fmap_compose. rewrite <-(list_fmap_id o) at 1.
    apply list_fmap_ext. intros _ b _. simpl. by rewrite flip_top_involutive.
Qed.

Lemma decompress_other_sign_witness :
  @char_is_signed x86_64 ≠ @char_is_signed aarch64 ∧
  @little_endian x86_64 = @little_endian aarch64 ∧
  @Decoder.decompress aarch64 (written (@Encoder.compress x86_64 [Byte.x41; Byte.x42])) =
    IO [Byte.xc1; Byte.xc2] (Ok tt).
Proof.
  assert (@char_is_signed x86_64 ≠ @char_is_signed aarch64) as H1 by discriminate.
  assert (@little_endian x86_64 = @little_endian aarch64) as H2 by reflexivity.
  split; [exact H1|]. split; [exact H2|].
  exact (decompress_other_sign x86_64 aarch64 [Byte.x41; Byte.x42] H1 H2).
Defined.

Section byte_order.
Context (L B : Platform).
Hypothesis HL : @little_endian L = true.
Hypothesis HB : @little_endian B = false.
Hypothesis HC : @char_is_signed L = @char_is_signed B.

Lemma code_bytes_swap (i : CodeType) : @code_bytes B i = swap_codes (@code_bytes L i).
Proof. unfold code_bytes. by rewrite HL, HB. Qed.

Lemma swap_codes_code (i : CodeType) (rest : list byte) :
  swap_codes (@code_bytes L i ++ rest) = swap_codes (@code_bytes L i) ++ swap_codes rest.
Proof. unfold code_bytes. by rewrite HL. Qed.

Lemma encoder_reset_host : @Encoder.reset_dictionary B = @Encoder.reset_dictionary L.
Proof. unfold Encoder.reset_dictionary, char_range, minc, maxc. by rewrite HC. Qed.

Lemma char_of_byte_host (b : byte) : @char_of_byte B b = @char_of_byte L b.
Proof. unfold char_of_byte. by rewrite HC. Qed.

Lemma encoder_step_swap (st : Encoder.state) (c : Z) :
  @Encoder.step B st c =
    IO (swap_codes (written (@Encoder.step L st c))) (outcome (@Encoder.step L st c)).
Proof.
  unfold Encoder.step, Encoder.current. rewrite encoder_reset_host.
  set (d := if Encoder.at_capacity st then _ else _).
  destruct (d !! (Encoder.i st, c)).
  - by destruct (Encoder.map_at d (Encoder.i st, c)).
  - destruct (Encoder.map_at _ (globals.dms, c)); io_simpl;
      by rewrite !app_nil_r, code_bytes_swap.
Qed.

Lemma encoder_flush_swap (st : Encoder.state) :
  @Encoder.flush B st =
    IO (swap_codes (written (@Encoder.flush L st))) (outcome (@Encoder.flush L st)).
Proof.
  unfold Encoder.flush. destruct (Encoder.i st =? globals.dms); [done|].
  unfold write. cbn [written outcome]. by rewrite code_bytes_swap.
Qed.

Lemma encoder_step_written (st : Encoder.state) (c : Z) :
  written (@Encoder.step L st c) = [] ∨
  written (@Encoder.step L st c) = @code_bytes L (Encoder.i st).
Proof.
  unfold Encoder.step. set (d := Encoder.current st).
  destruct (d !! (Encoder.i st, c)).
  - left. by destruct (Encoder.map_at d (Encoder.i st, c)).
  - right. destruct (Encoder.map_at _ (globals.dms, c)); io_simpl;
      by rewrite ?app_nil_r.
Qed.

Lemma encoder_run_swap (x : list byte) : ∀ st,
  @Encoder.loop B st x ≫= @Encoder.flush B =
    IO (swap_codes (written (@Encoder.loop L st x ≫= @Encoder.flush L)))
       (outcome (@Encoder.loop L st x ≫= @Encoder.flush L)).
Proof.
  induction x as [|b x IH]; intros st.
  - cbn [Encoder.loop]. io_simpl. rewrite encoder_flush_swap.
    by destruct (@Encoder.flush L st).
  - pose proof (encoder_step_written st (@char_of_byte L b)) as Hw.
    destruct (@Encoder.step L st (@char_of_byte L b)) as [o [st'|f]] eqn:HstepL.
    + assert (@Encoder.step B st (@char_of_byte B b) = IO (swap_codes o) (Ok st')) as HstepB.
      { by rewrite char_of_byte_host, encoder_step_swap, HstepL. }
      rewrite (@encoder_run_cons B _ _ _ _ _ HstepB), (@encoder_run_cons L _ _ _ _ _ HstepL).
      rewrite IH. cbn [written outcome]. f_equal.
      destruct Hw as [Hw|Hw]; cbn [written] in Hw; subst o; [done|].
      by rewrite swap_codes_code.
    + cbn [Encoder.loop]. rewrite char_of_byte_host, encoder_step_swap, HstepL.
      by io_simpl.
Qed.
End byte_order.

(** X12. The compressed format is in the byte order of the host: on
    hosts that agree on the sign of [char], what the big-endian one
    writes for an input is what the little-endian one writes with the
    two bytes of every code swapped. *)
Theorem compress_byte_order (L B : Platform) (x : list byte) :
  @little_endian L = true → @little_endian B = false →
  @char_is_signed L = @char_is_signed B →
  written (@Encoder.compress B x) = swap_codes (written (@Encoder.compress L x)).
Proof.
  intros HL HB HC. unfold Encoder.compress, Encoder.init.
  rewrite (encoder_reset_host L B HC).
  by rewrite (encoder_run_swap L B HL HB HC).
Qed.

Lemma compress_byte_order_witness :
  @little_endian aarch64 = true ∧ @little_endian s390x = false ∧
  @char_is_signed aarch64 = @char_is_signed s390x ∧
  written (@Encoder.compress s390x [Byte.x41; Byte.x41; Byte.x41]) =
    swap_codes (written (@Encoder.compress aarch64 [Byte.x41; Byte.x41; Byte.x41])).
Proof.
  assert (@little_endian aarch64 = true) as H1 by reflexivity.
  assert (@little_endian s390x = false) as H2 by reflexivity.
  assert (@char_is_signed aarch64 = @char_is_signed s390x) as H3 by reflexivity.
  do 3 (split; [assumption|]).
  exact (compress_byte_order aarch64 s390x [Byte.x41; Byte.x41; Byte.x41] H1 H2 H3).
Defined.

Section byte_order_decoder.
Context (L B : Platform).
Hypothesis HL : @little_endian L = true.
Hypothesis HB : @little_endian B = false.
Hypothesis HC : @char_is_signed L = @char_is_signed B.

Lemma bytes_code_swap (b0 b1 : byte) : @bytes_code B b1 b0 = @bytes_code L b0 b1.
Proof. unfold bytes_code. by rewrite HL, HB. Qed.

Lemma decoder_reset_host : @Decoder.reset_dictionary B = @Decoder.reset_dictionary L.
Proof. unfold Decoder.reset_dictionary, char_range, minc, maxc. by rewrite HC. Qed.

Lemma decoder_step_host (sd : Decoder.state) (k : CodeType) :
  @Decoder.step B sd k = @Decoder.step L sd k.
Proof. unfold Decoder.step, Decoder.current. by rewrite decoder_reset_host. Qed.

Lemma decoder_loop_swap (input : list byte) : ∀ sd,
  @Decoder.loop B sd (swap_codes input) = @Decoder.loop L sd input.
Proof.
  induction input as [|a|b0 b1 input IH] using list_pair_ind; intros sd; [done..|].
  cbn [swap_codes]. rewrite !decoder_loop_cons, bytes_code_swap, decoder_step_host.
  destruct (@Decoder.step L sd (@bytes_code L b0 b1)) as [o [sd'|f]]; io_simpl; [|done].
  by rewrite IH.
Qed.
End byte_order_decoder.

(** X13. A stream from a host of the other byte order is read as on
    that host once the two bytes of every code are swapped, on hosts
    that agree on the sign of [char]: the same bytes are written and
    the run ends the same way. *)
Theorem decompress_byte_order (L B : Platform) (input : list byte) :
  @little_endian L = true → @little_endian B = false →
  @char_is_signed L = @char_is_signed B →
  @Decoder.decompress B (swap_codes input) = @Decoder.decompress L input.
Proof.
  intros HL HB HC. unfold Decoder.decompress, Decoder.init.
  rewrite (decoder_reset_host L B HC). by apply decoder_loop_swap.
Qed.

Lemma decompress_byte_order_witness :
  @little_endian aarch64 = true ∧ @little_endian s390x = false ∧
  @char_is_signed aarch64 = @char_is_signed s390x ∧
  @Decoder.decompress s390x (swap_codes [Byte.x41; Byte.x00; Byte.x00; Byte.x01]) =
    @Decoder.decompress aarch64 [Byte.x41; Byte.x00; Byte.x00; Byte.x01].
Proof.
  assert (@little_endian aarch64 = true) as H1 by reflexivity.
  assert (@little_endian s390x = false) as H2 by reflexivity.
  assert (@char_is_signed aarch64 = @char_is_signed s390x) as H3 by reflexivity.
  do 3 (split; [assumption|]).
  exact (decompress_byte_order aarch64 s390x [Byte.x41; Byte.x00; Byte.x00; Byte.x01] H1 H2 H3).
Defined.

(** ** [main] *)

Lemma string_app_nonempty (s1 s2 : string) : s2 ≠ "" → s1 +:+ s2 ≠ "".
Proof. intros Hs2. destruct s1; simpl; [done|discriminate]. Qed.

Lemma print_usage_nonempty (s : string) (su : bool) : print_usage s su ≠ "".
Proof.
  unfold print_usage. apply string_app_nonempty, string_app_nonempty. discriminate.
Qed.

Section main_facts.
Context {P : Platform} {H : Host}.

Lemma ulong_modulus : 2 ^ 32 ≤ 2 ^ ulong_bits.
Proof. apply N.pow_le_mono_r; [done|apply ulong_bits_min]. Qed.

Lemma to_ulong_small (n : N) : n < 2 ^ ulong_bits → to_ulong n = n.
Proof. intros. by apply N.mod_small. Qed.

Lemma thrown_status (x : list byte) (f : failure) (fs : gmap string (list byte)) :
  files_after (thrown x f fs) = fs ∧ cout (thrown x f fs) = "" ∧
  match status (thrown x f fs) with
  | Returns c => c = EXIT_FAILURE ∧ cerr (thrown x f fs) ≠ ""
  | Beyond _ => cerr (thrown x f fs) = ""
  end.
Proof.
  destruct f; simpl; (split; [done|]); (split; [done|]);
    try done; (split; [done|apply print_usage_nonempty]).
Qed.
End main_facts.

(** X14. [main] never fails silently and never mixes its two channels:
    when it returns, either the code is [EXIT_SUCCESS], a line is on
    [std::cout] and nothing on [std::cerr], or the code is
    [EXIT_FAILURE], a diagnostic is on [std::cerr] and nothing on
    [std::cout]. *)
Theorem main_exit_discipline {P : Platform} {H : Host} (argv : list string) (w : world) :
  match status (main argv w) with
  | Returns c =>
      (c = EXIT_SUCCESS ∧ cerr (main argv w) = "" ∧ cout (main argv w) ≠ "") ∨
      (c = EXIT_FAILURE ∧ cerr (main argv w) ≠ "" ∧ cout (main argv w) = "")
  | Beyond _ => True
  end.
Proof.
  unfold main.
  destruct argv as [|prog [|flag [|input rest]]];
    try (simpl; right; split; [done|]; split; [apply print_usage_nonempty|done]).
  destruct (parse_mode flag) as [m|];
    [|simpl; right; split; [done|]; split; [apply print_usage_nonempty|done]].
  destruct (files w !! input);
    [|simpl; right; split; [done|]; split; [apply print_usage_nonempty|done]].
  destruct rest as [|output rest]; [done|].
  destruct (decide (output ∈ denied w));
    [simpl; right; split; [done|]; split; [apply print_usage_nonempty|done]|].
  cbn zeta. destruct m.
  - destruct (outcome (Encoder.compress _)) as [[]|f].
    + destruct (percent _ _); simpl; [|done]. left. done.
    + destruct (thrown_status (default [] (<[output:=[]]> (files w) !! input)) f
          (<[output := written (Encoder.compress
             (default [] (<[output:=[]]> (files w) !! input)))]> (<[output:=[]]> (files w))))
        as (_ & Hout & Hst).
      destruct (status (thrown _ f _)); [right|]; intuition.
  - destruct (outcome (Decoder.decompress _)) as [[]|f].
    + simpl. left. done.
    + destruct (thrown_status (default [] (<[output:=[]]> (files w) !! input)) f
          (<[output := written (Decoder.decompress
             (default [] (<[output:=[]]> (files w) !! input)))]> (<[output:=[]]> (files w))))
        as (_ & Hout & Hst).
      destruct (status (thrown _ f _)); [right|]; intuition.
Qed.

(** X15. Unless [main] is called with a known flag, an input that opens
    and an output that opens, it changes no file and prints nothing on
    [std::cout]. It then returns [EXIT_FAILURE] with a diagnostic,
    except when exactly the output path is missing: the test
    [argc < 3] lets that call through, and [open()] is given
    [argv[argc]], a null pointer. Only "--compress" and "--dcompress"
    are known flags. *)
Theorem main_usage_errors {P : Platform} {H : Host} (argv : list string) (w : world) :
  ¬ well_called argv w →
  files_after (main argv w) = files w ∧
  cout (main argv w) = "" ∧
  (status (main argv w) = Beyond NullPath ↔
   ∃ prog flag input,
     argv = [prog; flag; input] ∧
     (flag = "--compress" ∨ flag = "--dcompress") ∧
     is_Some (files w !! input)) ∧
  (status (main argv w) ≠ Beyond NullPath →
   status (main argv w) = Returns EXIT_FAILURE ∧ cerr (main argv w) ≠ "").
Proof.
  intros Hbad. unfold main.
  destruct argv as [|prog [|flag [|input rest]]];
    try (simpl; split; [done|]; split; [done|]; split;
         [split; [done|by intros (? & ? & ? & [=] & _)]
         |intros _; split; [done|apply print_usage_nonempty]]).
  destruct (parse_mode flag) as [m|] eqn:Hm.
  - destruct (files w !! input) as [x|] eqn:Hin.
    + destruct rest as [|output rest].
      * simpl. split; [done|]. split; [done|]. split; [|done].
        split; [|done]. intros _. exists prog, flag, input.
        split; [done|]. split; [|by rewrite Hin].
        unfold parse_mode in Hm. repeat case_decide; simplify_eq; auto.
      * destruct (decide (output ∈ denied w)) as [Hd|Hd].
        -- simpl. split; [done|]. split; [done|].
           split; [split; [done|by intros (? & ? & ? & [=] & _)]|].
           intros _. split; [done|apply print_usage_nonempty].
        -- exfalso. apply Hbad. exists prog, flag, input, output, rest, m.
           by rewrite Hin.
    + simpl. split; [done|]. split; [done|]. split.
      * split; [done|]. intros (? & ? & ? & [= -> -> ->] & _ & Hs).
        rewrite Hin in Hs. by destruct Hs.
      * intros _. split; [done|apply print_usage_nonempty].
  - simpl. split; [done|]. split; [done|]. split.
    + split; [done|]. intros (? & ? & ? & [= -> -> ->] & Hf & _).
      unfold parse_mode in Hm. repeat case_decide; [done..|]. destruct Hf; done.
    + intros _. split; [done|apply print_usage_nonempty].
Qed.

Lemma main_usage_errors_witness :
  let w := World ∅ ∅ in
  ¬ well_called ["lzw"; "--decompress"; "in"; "out"] w ∧
  files_after (@main x86_64 lp64 ["lzw"; "--decompress"; "in"; "out"] w) = files w ∧
  cout (@main x86_64 lp64 ["lzw"; "--decompress"; "in"; "out"] w) = "" ∧
  (status (@main x86_64 lp64 ["lzw"; "--decompress"; "in"; "out"] w) = Beyond NullPath ↔
   ∃ prog flag input,
     ["lzw"; "--decompress"; "in"; "out"] = [prog; flag; input] ∧
     (flag = "--compress" ∨ flag = "--dcompress") ∧
     is_Some (files w !! input)) ∧
  (status (@main x86_64 lp64 ["lzw"; "--decompress"; "in"; "out"] w) ≠ Beyond NullPath →
   status (@main x86_64 lp64 ["lzw"; "--decompress"; "in"; "out"] w) = Returns EXIT_FAILURE ∧
   cerr (@main x86_64 lp64 ["lzw"; "--decompress"; "in"; "out"] w) ≠ "").
Proof.
  intros w.
  assert (¬ well_called ["lzw"; "--decompress"; "in"; "out"] w) as Hbad.
  { intros (? & ? & ? & ? & ? & m & [= <- <- <- <- <-] & Hm & _). vm_compute in Hm.
    discriminate. }
  split; [exact Hbad|].
  exact (@main_usage_errors x86_64 lp64 ["lzw"; "--decompress"; "in"; "out"] w Hbad).
Defined.

Section main_modes.
Context {P : Platform} {H : Host}.

Lemma main_opened (prog flag input output : string) (rest : list string)
    (w : world) (m : Mode) (x : list byte) :
  parse_mode flag = Some m → files w !! input = Some x → output ∉ denied w →
  main (prog :: flag :: input :: output :: rest) w =
    let opened := <[output := []]> (files w) in
    let content := default [] (opened !! input) in
    match m with
    | Compress =>
        let r := Encoder.compress content in
        let fs := <[output := written r]> opened in
        match outcome r with
        | Raise f => thrown content f fs
        | Ok _ =>
            match percent (file_size fs input) (file_size fs output) with
            | None => Run (Beyond DivisionByZero) fs "" ""
            | Some p =>
                Run (Returns EXIT_SUCCESS) fs
                    ("The file " +:+ input +:+ " is compressed by  " +:+
                     pretty p +:+ "%" +:+ nl) ""
            end
        end
    | Decompress =>
        let r := Decoder.decompress content in
        let fs := <[output := written r]> opened in
        match outcome r with
        | Raise f => thrown content f fs
        | Ok _ =>
            Run (Returns EXIT_SUCCESS) fs
                ("The file " +:+ input +:+ " is decompressed." +:+ nl) ""
        end
    end.
Proof.
  intros Hm Hin Hd. unfold main. rewrite Hm, Hin.
  by destruct (decide (output ∈ denied w)).
Qed.

Lemma compress_written (x : list byte) :
  outcome (Encoder.compress x) = Ok tt.
Proof. by destruct (compress_decompress x) as (codes & -> & _). Qed.

(** The figure [main] prints for an input of [n] bytes compressed to
    [2 * k] bytes. *)
Lemma percent_of_sizes (n k : N) :
  1 ≤ k ≤ n → n * 10 < 2 ^ ulong_bits →
  percent (to_ulong n) (to_ulong (2 * k)) =
    Some (if n * 10 / (2 * k) <=? 100 then 100 - n * 10 / (2 * k)
          else 2 ^ ulong_bits + 100 - n * 10 / (2 * k)) ∧
  5 ≤ n * 10 / (2 * k).
Proof.
  intros Hk Hn. pose proof ulong_modulus as Hw.
  assert (n * 10 / (2 * k) ≤ n * 10) as Hq.
  { apply N.Div0.div_le_upper_bound. nia. }
  assert (5 ≤ n * 10 / (2 * k)) as Hq5.
  { apply N.div_le_lower_bound; nia. }
  split; [|done].
  unfold percent. rewrite (to_ulong_small n), (to_ulong_small (2 * k)) by lia.
  rewrite (to_ulong_small (n * 10)) by lia.
  destruct (N.eqb_spec (2 * k) 0) as [|_]; [lia|]. f_equal.
  set (q := n * 10 / (2 * k)) in *.
  destruct (N.leb_spec q 100).
  - unfold to_ulong. symmetry. apply (N.mod_unique _ _ 1); lia.
  - rewrite (N.add_comm 100). apply to_ulong_small. lia.
Qed.

Lemma compress_percent (x : list byte) :
  x ≠ [] → N.of_nat (length x) * 10 < 2 ^ ulong_bits →
  let q := N.of_nat (length x) * 10 / N.of_nat (length (written (Encoder.compress x))) in
  percent (to_ulong (N.of_nat (length x)))
          (to_ulong (N.of_nat (length (written (Encoder.compress x))))) =
    Some (if q <=? 100 then 100 - q else 2 ^ ulong_bits + 100 - q) ∧
  5 ≤ q.
Proof.
  intros Hx Hsize q. destruct (compress_length x) as (k & Hk & Hle & Hk0).
  assert (k ≠ 0%nat) as Hk1 by (intros E; by apply Hx, Hk0).
  assert (N.of_nat (length (written (Encoder.compress x))) = 2 * N.of_nat k) as Hlen
    by (rewrite Hk; lia).
  subst q. rewrite Hlen. apply percent_of_sizes; [lia|done].
Qed.
End main_modes.

(** X16. Where ten times the size of the input fits [unsigned long],
    compressing an existing, non-empty file into another path returns
    [EXIT_SUCCESS]; the output file then holds what [compress] writes
    for the input, and no other file has changed. With [q] for
    [InSize * 10 / OutSize], the figure printed as "compressed by" is
    [100 - q] when [q] is at most 100, and [100 - q] wrapped around
    the range of [unsigned long] when it is more. [q] is at least 5, so
    a figure that has not wrapped is at most 95. Without the bound on
    the size [InSize * 10] or [OutSize] can wrap, and the figure or the
    division is another. *)
Theorem main_compress {P : Platform} {H : Host} (prog input output : string)
    (rest : list string) (w : world) (x : list byte) :
  files w !! input = Some x → x ≠ [] → input ≠ output → output ∉ denied w →
  N.of_nat (length x) * 10 < 2 ^ ulong_bits →
  let q := N.of_nat (length x) * 10 / N.of_nat (length (written (Encoder.compress x))) in
  let p := if q <=? 100 then 100 - q else 2 ^ ulong_bits + 100 - q in
  main (prog :: "--compress" :: input :: output :: rest) w =
    Run (Returns EXIT_SUCCESS)
        (<[output := written (Encoder.compress x)]> (files w))
        ("The file " +:+ input +:+ " is compressed by  " +:+ pretty p +:+ "%" +:+ nl)
        "" ∧
  5 ≤ q ∧ (q ≤ 100 → p ≤ 95).
Proof.
  intros Hin Hx Hne Hd Hsize q p.
  rewrite (main_opened _ _ _ _ _ _ Compress x) by done. cbn zeta.
  rewrite lookup_insert_ne, Hin by done. simpl.
  rewrite compress_written, insert_insert_eq.
  unfold file_size. rewrite lookup_insert_eq, lookup_insert_ne, Hin by done. simpl.
  destruct (compress_percent x Hx Hsize) as [Hp Hq5]. fold q in Hp, Hq5.
  rewrite Hp. split; [done|]. split; [done|].
  intros Hq. subst p. destruct (N.leb_spec q 100); lia.
Qed.

Lemma main_compress_witness :
  let w := World {[ "in" := [Byte.x41; Byte.x41; Byte.x41; Byte.x41] ]} ∅ in
  let x := [Byte.x41; Byte.x41; Byte.x41; Byte.x41] in
  files w !! "in" = Some x ∧ x ≠ [] ∧ "in" ≠ "out" ∧ ("out" ∉ denied w) ∧
  N.of_nat (length x) * 10 < 2 ^ @ulong_bits lp64 ∧
  @main aarch64 lp64 ["lzw"; "--compress"; "in"; "out"] w =
    Run (Returns EXIT_SUCCESS)
        (<["out" := written (@Encoder.compress aarch64 x)]> (files w))
        ("The file in is compressed by  94%" +:+ nl) "".
Proof.
  intros w x.
  assert (files w !! "in" = Some x) as H1 by reflexivity.
  assert (x ≠ []) as H2 by discriminate.
  assert ("in" ≠ "out") as H3 by discriminate.
  assert ("out" ∉ denied w) as H4 by apply not_elem_of_empty.
  assert (N.of_nat (length x) * 10 < 2 ^ @ulong_bits lp64) as H5 by reflexivity.
  do 5 (split; [assumption|]).
  rewrite (proj1 (@main_compress aarch64 lp64 "lzw" "in" "out" [] w x H1 H2 H3 H4 H5)).
  vm_compute. reflexivity.
Defined.

(** X17. Compressing an empty file does not get to a return: the output
    file is left empty, and [InSize * 10 / OutSize] then divides by
    zero. *)
Theorem main_compress_empty {P : Platform} {H : Host} (prog input output : string)
    (rest : list string) (w : world) :
  files w !! input = Some [] → output ∉ denied w →
  status (main (prog :: "--compress" :: input :: output :: rest) w) =
    Beyond DivisionByZero ∧
  files_after (main (prog :: "--compress" :: input :: output :: rest) w) =
    <[output := []]> (files w).
Proof.
  intros Hin Hd. rewrite (main_opened _ _ _ _ _ _ Compress []) by done. cbn zeta.
  assert (default [] (<[output := []]> (files w) !! input) = []) as ->.
  { destruct (decide (output = input)) as [->|Hne].
    - by rewrite lookup_insert_eq.
    - by rewrite lookup_insert_ne, Hin. }
  change (Encoder.compress []) with (IO (A:=unit) [] (Ok tt)). simpl.
  rewrite insert_insert_eq. unfold percent, file_size.
  by rewrite lookup_insert_eq.
Qed.

Lemma main_compress_empty_witness :
  let w := World {[ "in" := [] ]} ∅ in
  files w !! "in" = Some [] ∧ ("out" ∉ denied w) ∧
  status (@main x86_64 lp64 ["lzw"; "--compress"; "in"; "out"] w) = Beyond DivisionByZero ∧
  files_after (@main x86_64 lp64 ["lzw"; "--compress"; "in"; "out"] w) =
    <["out" := []]> (files w).
Proof.
  intros w.
  assert (files w !! "in" = Some []) as H1 by reflexivity.
  assert ("out" ∉ denied w) as H2 by apply not_elem_of_empty.
  split; [exact H1|]. split; [exact H2|].
  exact (@main_compress_empty x86_64 lp64 "lzw" "in" "out" [] w H1 H2).
Defined.

(** X18. Decompressing a file into another path: [main] returns
    [EXIT_SUCCESS] exactly when [decompress] ends without failure. When
    [decompress] throws one of its exceptions, [main] returns
    [EXIT_FAILURE] and names the exception on [std::cerr]. Whenever
    [main] returns, the output file holds what [decompress] wrote, also
    after an exception, and no other file has changed. *)
Theorem main_decompress {P : Platform} {H : Host} (prog input output : string)
    (rest : list string) (w : world) (x : list byte) :
  files w !! input = Some x → input ≠ output → output ∉ denied w →
  let r := main (prog :: "--dcompress" :: input :: output :: rest) w in
  let d := Decoder.decompress x in
  (status r = Returns EXIT_SUCCESS ↔ outcome d = Ok tt) ∧
  (∀ f, outcome d = Raise f →
        f = InvalidCode ∨ f = CorruptStream ∨ f = OutOfRange →
        status r = Returns EXIT_FAILURE ∧
        cerr r = print_usage ("Caught exception: " +:+ what x f +:+ ".") false) ∧
  (∀ c, status r = Returns c → files_after r = <[output := written d]> (files w)).
Proof.
  intros Hin Hne Hd r d. subst r d.
  rewrite (main_opened _ _ _ _ _ _ Decompress x) by done. cbn zeta.
  rewrite lookup_insert_ne, Hin by done. simpl. rewrite insert_insert_eq.
  destruct (Decoder.decompress x) as [o [[]|f]]; simpl.
  - split; [done|]. split; [|done]. by intros f [=].
  - split; [by destruct f|]. split.
    + intros f' [= <-] [-> | [-> | ->]]; done.
    + intros c. by destruct f.
Qed.

Lemma main_decompress_witness :
  let w := World {[ "in" := [Byte.x41; Byte.x00; Byte.x42] ]} ∅ in
  let x := [Byte.x41; Byte.x00; Byte.x42] in
  files w !! "in" = Some x ∧ "in" ≠ "out" ∧ ("out" ∉ denied w) ∧
  (status (@main aarch64 lp64 ["lzw"; "--dcompress"; "in"; "out"] w) = Returns EXIT_SUCCESS ↔
   outcome (@Decoder.decompress aarch64 x) = Ok tt).
Proof.
  intros w x.
  assert (files w !! "in" = Some x) as H1 by reflexivity.
  assert ("in" ≠ "out") as H2 by discriminate.
  assert ("out" ∉ denied w) as H3 by apply not_elem_of_empty.
  do 3 (split; [assumption|]).
  exact (proj1 (@main_decompress aarch64 lp64 "lzw" "in" "out" [] w x H1 H2 H3)).
Defined.

(** X19. Round trip through files, for a non-empty file whose size
    taken ten times fits [unsigned long], so that the sizes [main]
    computes do not wrap: compressing it and decompressing the result,
    each time into another path, both return [EXIT_SUCCESS] and leave
    in the last file the content of the first. *)
Theorem main_round_trip {P : Platform} {H : Host} (prog1 prog2 a b c : string)
    (w : world) (x : list byte) :
  files w !! a = Some x → x ≠ [] → a ≠ b → b ≠ c →
  b ∉ denied w → c ∉ denied w →
  N.of_nat (length x) * 10 < 2 ^ ulong_bits →
  let r1 := main [prog1; "--compress"; a; b] w in
  let r2 := main [prog2; "--dcompress"; b; c] (World (files_after r1) (denied w)) in
  status r1 = Returns EXIT_SUCCESS ∧
  status r2 = Returns EXIT_SUCCESS ∧
  files_after r2 !! c = Some x.
Proof.
  intros Ha Hx Hab Hbc Hb Hc Hsize r1 r2.
  assert (r1 = Run (Returns EXIT_SUCCESS) (<[b := written (Encoder.compress x)]> (files w))
                   (cout r1) "") as Hr1.
  { subst r1 r2. rewrite (main_opened _ _ _ _ _ _ Compress x) by done. cbn zeta.
    rewrite lookup_insert_ne, Ha by done. simpl.
    rewrite compress_written, insert_insert_eq.
    unfold file_size. rewrite lookup_insert_eq, lookup_insert_ne, Ha by done. simpl.
    destruct (compress_percent x Hx Hsize) as [-> _]. done. }
  subst r2. rewrite Hr1. cbn [status files_after]. split; [done|].
  destruct (compress_decompress x) as (codes & Hcodes & Hdec & _).
  rewrite Hcodes. cbn [written].
  rewrite (main_opened _ _ _ _ _ _ Decompress codes);
    [|done|apply lookup_insert_eq|done]. cbn [files denied] in *. cbn zeta.
  rewrite lookup_insert_ne, lookup_insert_eq by done. simpl.
  rewrite Hdec. simpl. split; [done|]. apply lookup_insert_eq.
Qed.

Lemma main_round_trip_witness :
  let w := World {[ "in" := [Byte.x41; Byte.x41; Byte.x41; Byte.x41] ]} ∅ in
  let x := [Byte.x41; Byte.x41; Byte.x41; Byte.x41] in
  files w !! "in" = Some x ∧ x ≠ [] ∧ "in" ≠ "mid" ∧ "mid" ≠ "out" ∧
  ("mid" ∉ denied w) ∧ ("out" ∉ denied w) ∧
  N.of_nat (length x) * 10 < 2 ^ @ulong_bits llp64 ∧
  files_after
    (@main x86_64 llp64 ["lzw"; "--dcompress"; "mid"; "out"]
       (World (files_after (@main x86_64 llp64 ["lzw"; "--compress"; "in"; "mid"] w))
              (denied w))) !! "out" = Some x.
Proof.
  intros w x.
  assert (files w !! "in" = Some x) as H1 by reflexivity.
  assert (x ≠ []) as H2 by discriminate.
  assert ("in" ≠ "mid") as H3 by discriminate.
  assert ("mid" ≠ "out") as H4 by discriminate.
  assert ("mid" ∉ denied w) as H5 by apply not_elem_of_empty.
  assert ("out" ∉ denied w) as H6 by apply not_elem_of_empty.
  assert (N.of_nat (length x) * 10 < 2 ^ @ulong_bits llp64) as H7 by reflexivity.
  do 7 (split; [assumption|]).
  exact (proj2 (proj2 (@main_round_trip x86_64 llp64 "lzw" "lzw" "in" "mid" "out"
                         w x H1 H2 H3 H4 H5 H6 H7))).
Defined.

(** X20. The two paths must differ, and [main] does not check it: with
    the output path equal to the input path the file is emptied before
    it is read. In compress mode the division by zero follows; in
    decompress mode [main] returns [EXIT_SUCCESS]. *)
Theorem main_same_file {P : Platform} {H : Host} (prog flag path : string)
    (rest : list string) (w : world) (m : Mode) :
  parse_mode flag = Some m → is_Some (files w !! path) → path ∉ denied w →
  files_after (main (prog :: flag :: path :: path :: rest) w) = <[path := []]> (files w) ∧
  status (main (prog :: flag :: path :: path :: rest) w) =
    match m with
    | Compress => Beyond DivisionByZero
    | Decompress => Returns EXIT_SUCCESS
    end.
Proof.
  intros Hm [x Hin] Hd. rewrite (main_opened _ _ _ _ _ _ m x) by done. cbn zeta.
  rewrite lookup_insert_eq. simpl. destruct m.
  - change (Encoder.compress []) with (IO (A:=unit) [] (Ok tt)). simpl.
    rewrite insert_insert_eq. unfold percent, file_size.
    by rewrite lookup_insert_eq.
  - change (Decoder.decompress []) with (IO (A:=unit) [] (Ok tt)). simpl.
    by rewrite insert_insert_eq.
Qed.

Lemma main_same_file_witness :
  let w := World {[ "f" := [Byte.x41] ]} ∅ in
  parse_mode "--compress" = Some Compress ∧ is_Some (files w !! "f") ∧ ("f" ∉ denied w) ∧
  files_after (@main x86_64 lp64 ["lzw"; "--compress"; "f"; "f"] w) =
    <["f" := []]> (files w) ∧
  status (@main x86_64 lp64 ["lzw"; "--compress"; "f"; "f"] w) = Beyond DivisionByZero.
Proof.
  intros w.
  assert (parse_mode "--compress" = Some Compress) as H1 by reflexivity.
  assert (is_Some (files w !! "f")) as H2 by (by eexists).
  assert ("f" ∉ denied w) as H3 by apply not_elem_of_empty.
  do 3 (split; [assumption|]).
  exact (@main_same_file x86_64 lp64 "lzw" "--compress" "f" [] w Compress H1 H2 H3).
Defined.
